(** * xweathericon: the URL parser, the HTTP transport and the weather pass

    A shallow embedding of [http.c] (url_parse, http_req_read,
    http_req_skip_header, the byte and chunk accessors) and of
    [fetch_weather] from [xweathericon.c], with the properties the
    specification states about them.

    Conventions.
    - A C string is the list of its bytes before the terminating NUL.
    - [ssize_t] and [size_t] are 64-bit; a value is kept as a [Z] and the
      conversions between the two types are written out ([to_size_t],
      [to_ssize_t]).
    - [malloc] is assumed to succeed (the code calls [err] otherwise). *)

From Stdlib Require Import Strings.Byte Strings.String.
From Stdlib Require Import ZArith List Bool Lia.
From Stdlib Require DecimalString.
Import ListNotations.

Local Open Scope Z_scope.

(** ** Results of a C call *)

(** A call either returns, ends the process through [err]/[errx], runs into
    behaviour the C standard leaves undefined, or is still looping when the
    iteration budget given to the model is used up. *)
Inductive outcome (A : Type) : Type :=
| Ret (a : A)
| Exit
| Undef
| Spin.

Arguments Ret {A} a.
Arguments Exit {A}.
Arguments Undef {A}.
Arguments Spin {A}.

(** ** Bytes and C strings *)

Definition cstr (s : string) : list byte := list_byte_of_string s.

Definition byte_val (b : byte) : Z := Z.of_N (Byte.to_N b).

(** [isspace] in the C locale: space, \t, \n, \v, \f, \r. *)
Definition isspace (b : byte) : bool :=
  let v := byte_val b in (v =? 32) || ((9 <=? v) && (v <=? 13)).

Definition isdigit (b : byte) : bool :=
  let v := byte_val b in (48 <=? v) && (v <=? 57).

(** [strcmp(a, b) == 0] *)
Fixpoint streq (a b : list byte) : bool :=
  match a, b with
  | [], [] => true
  | x :: a', y :: b' => Byte.eqb x y && streq a' b'
  | _, _ => false
  end.

(** The longest prefix whose bytes satisfy [p], and what follows it. *)
Fixpoint span (p : byte -> bool) (s : list byte) : list byte * list byte :=
  match s with
  | [] => ([], [])
  | b :: s' =>
      if p b then let '(m, r) := span p s' in (b :: m, r) else ([], s)
  end.

Module Url.

(** [struct url] of http.h; [port] is an [unsigned short]. *)
Record url : Type := mk_url {
  scheme : list byte;
  host : list byte;
  port : Z;
  path : list byte
}.

(** *** The sscanf directives used by url_parse *)

(** A directive consumes a prefix of the input and yields a value, or
    fails to match. *)
Definition directive (A : Type) : Type := list byte -> option (A * list byte).

(** [%[^c]]: a non-empty run of bytes other than [c]; no white space is
    skipped. *)
Definition scan_until (c : byte) : directive (list byte) := fun s =>
  match span (fun b => negb (Byte.eqb b c)) s with
  | ([], _) => None
  | (m, r) => Some (m, r)
  end.

(** An ordinary character of the format matches itself. *)
Fixpoint scan_literal (lit : list byte) : directive unit := fun s =>
  match lit with
  | [] => Some (tt, s)
  | c :: lit' =>
      match s with
      | b :: s' => if Byte.eqb b c then scan_literal lit' s' else None
      | [] => None
      end
  end.

Definition skip_space (s : list byte) : list byte := snd (span isspace s).

(** [%s]: white space is skipped, then a non-empty run of bytes that are
    not white space is taken. *)
Definition scan_word : directive (list byte) := fun s =>
  match span (fun b => negb (isspace b)) (skip_space s) with
  | ([], _) => None
  | (m, r) => Some (m, r)
  end.

Definition digit_val (b : byte) : Z := byte_val b - 48.

Definition decimal (ds : list byte) : Z :=
  fold_left (fun acc d => 10 * acc + digit_val d) ds 0.

(** What [%u] read: the sign, if one was written, and the magnitude. *)
Record uint_text : Type := mk_uint_text {
  negated : bool;
  magnitude : Z
}.

(** [%u]: white space is skipped, then an optionally signed decimal
    integer is taken, as strtoul does in base 10. *)
Definition scan_uint : directive uint_text := fun s =>
  let s1 := skip_space s in
  let '(neg, s2) :=
    match s1 with
    | b :: r =>
        if Byte.eqb b "-" then (true, r)
        else if Byte.eqb b "+" then (false, r)
        else (false, s1)
    | [] => (false, s1)
    end in
  match span isdigit s2 with
  | ([], _) => None
  | (ds, r) => Some (mk_uint_text neg (decimal ds), r)
  end.

(** The value stored in an [unsigned int]; C leaves the behaviour
    undefined when the converted value cannot be represented there. *)
Definition uint_value (t : uint_text) : option Z :=
  if negated t then (if magnitude t =? 0 then Some 0 else None)
  else if magnitude t <? 2 ^ 32 then Some (magnitude t) else None.

Definition consumed (str rest : list byte) : Z :=
  Z.of_nat (length str) - Z.of_nat (length rest).

(** [sscanf(str, "%[^:]://%[^:]:%u%s%n", ...)]; [Ret (Some _)] stands for a
    return value of 4, with the four assignments and the position stored
    by %n, [Ret None] for a smaller return value. *)
Definition sscanf_port (str : list byte)
  : outcome (option (list byte * list byte * Z * list byte * Z)) :=
  match scan_until ":" str with
  | None => Ret None
  | Some (sch, r1) =>
  match scan_literal (cstr "://") r1 with
  | None => Ret None
  | Some (_, r2) =>
  match scan_until ":" r2 with
  | None => Ret None
  | Some (hst, r3) =>
  match scan_literal (cstr ":") r3 with
  | None => Ret None
  | Some (_, r4) =>
  match scan_uint r4 with
  | None => Ret None
  | Some (txt, r5) =>
  match uint_value txt with
  | None => Undef
  | Some prt =>
  match scan_word r5 with
  | None => Ret None
  | Some (pth, r6) => Ret (Some (sch, hst, prt, pth, consumed str r6))
  end end end end end end end.

(** [sscanf(str, "%[^:]://%[^/]%s%n", ...)]; [Some] stands for a return
    value of 3. *)
Definition sscanf_noport (str : list byte)
  : option (list byte * list byte * list byte * Z) :=
  match scan_until ":" str with
  | None => None
  | Some (sch, r1) =>
  match scan_literal (cstr "://") r1 with
  | None => None
  | Some (_, r2) =>
  match scan_until "/" r2 with
  | None => None
  | Some (hst, r3) =>
  match scan_word r3 with
  | None => None
  | Some (pth, r4) => Some (sch, hst, pth, consumed str r4)
  end end end end.

(** The [consolidate] label: the three strings are copied in full and the
    [unsigned int] port is stored in the [unsigned short] field. *)
Definition consolidate (sch hst : list byte) (prt : Z) (pth : list byte)
  : outcome (option url) :=
  Ret (Some (mk_url sch hst (prt mod 2 ^ 16) pth)).

Definition url_parse (str : list byte) : outcome (option url) :=
  let len := Z.of_nat (length str) in
  match sscanf_port str with
  | Ret (Some (sch, hst, prt, pth, pos)) =>
      if pos >? len then Exit else consolidate sch hst prt pth
  | Ret None =>
      match sscanf_noport str with
      | Some (sch, hst, pth, pos) =>
          if pos >? len then Exit
          else if streq sch (cstr "http") then consolidate sch hst 80 pth
          else if streq sch (cstr "https") then consolidate sch hst 443 pth
          else Ret None
      | None => Ret None
      end
  | Exit => Exit
  | Undef => Undef
  | Spin => Spin
  end.










End Url.

Module Http.

(** *** Integer types *)

Definition to_size_t (z : Z) : Z := z mod 2 ^ 64.

Definition to_ssize_t (z : Z) : Z :=
  let u := z mod 2 ^ 64 in if u <? 2 ^ 63 then u else u - 2 ^ 64.

(** [sizeof(req->chunk)] *)
Definition CHUNK_SIZE : Z := 2048.

Definition CR : byte := x0d.
Definition LF : byte := x0a.

(** *** The connection *)

(** The fields of [struct http_request] that the read path touches.
    [https] and [tls] exist in the TLS build only; [tls] tells whether a
    session is attached.  [url], [message] and [status] are not used after
    http_get and are left out. *)
Record http_request : Type := mk_req {
  socket : Z;
  https : bool;
  tls : bool;
  chunk : list byte;
  chunk_len : Z;
  chunk_off : Z
}.

Definition set_chunk (r : http_request) (b : list byte) : http_request :=
  mk_req (socket r) (https r) (tls r) b (chunk_len r) (chunk_off r).

Definition set_chunk_len (r : http_request) (n : Z) : http_request :=
  mk_req (socket r) (https r) (tls r) (chunk r) n (chunk_off r).

Definition set_chunk_off (r : http_request) (n : Z) : http_request :=
  mk_req (socket r) (https r) (tls r) (chunk r) (chunk_len r) n.

(** What http_get leaves after [memset(req, 0, ...)] and [socket()]. *)
Definition fresh (fd : Z) (tls_on : bool) : http_request :=
  mk_req fd tls_on tls_on (repeat x00 (Z.to_nat CHUNK_SIZE)) 0 0.

(** The error path of http_req_read: the TLS session is closed and freed,
    the socket is closed and its field cleared. *)
Definition hang_up (r : http_request) : http_request :=
  mk_req 0 false (if https r then false else tls r)
         (chunk r) (chunk_len r) (chunk_off r).

(** *** The network *)

(** What [read] (or the [tls_read] retry loop, once it stops asking to be
    called again) returns: -1, or some bytes; no bytes is end of file. *)
Inductive read_result : Type :=
| ReadFail
| ReadBytes (bs : list byte).

(** What the next [select] with a zero timeout reports, and for a readable
    socket what the read after it returns. *)
Inductive net_event : Type :=
| SelectFail
| SelectIdle
| SelectReady (r : read_result).

(** The events still to come; when none is left the socket stays idle. *)
Definition network : Type := list net_event.

(** *** State passing *)

Record state : Type := mk_state {
  req : http_request;
  net : network
}.

Definition M (A : Type) : Type := state -> outcome (A * state).

Definition ret {A} (a : A) : M A := fun s => Ret (a, s).

Definition bind {A B} (m : M A) (k : A -> M B) : M B := fun s =>
  match m s with
  | Ret (a, s') => k a s'
  | Exit => Exit
  | Undef => Undef
  | Spin => Spin
  end.

Notation "x <- m ;; k" := (bind m (fun x => k))
  (at level 61, m at next level, right associativity).
Notation "m ;;; k" := (bind m (fun _ => k))
  (at level 61, right associativity).

Definition get_req : M http_request := fun s => Ret (req s, s).

Definition put_req (r : http_request) : M unit := fun s =>
  Ret (tt, mk_state r (net s)).

Definition modify_req (f : http_request -> http_request) : M unit :=
  fun s => Ret (tt, mk_state (f (req s)) (net s)).

Definition undefined {A} : M A := fun _ => Undef.

(** *** Memory of the chunk buffer *)

Definition byte_at (buf : list byte) (i : Z) : byte :=
  nth (Z.to_nat i) buf x00.

Definition write_at (off : Z) (bs buf : list byte) : list byte :=
  firstn (Z.to_nat off) buf ++ bs
    ++ skipn (Z.to_nat off + length bs) buf.

Definition in_chunk (off n : Z) : bool :=
  (0 <=? off) && (0 <=? n) && (off + n <=? CHUNK_SIZE).

(** [memmove(req->chunk + dst, req->chunk + src, n)]; both areas have to
    lie inside the array. *)
Definition memmove (dst src n : Z) (buf : list byte) : option (list byte) :=
  if in_chunk dst n && in_chunk src n
  then Some (write_at dst (firstn (Z.to_nat n) (skipn (Z.to_nat src) buf)) buf)
  else None.

(** *** http_req_read *)

(** The request argument: NULL, or the connection of the state. *)
Inductive req_ptr : Type := NULL | REQ.

(** [http_req_read(req, req->chunk + data, len)]: every caller passes a
    destination inside the chunk buffer, given here by its offset. *)
Definition http_req_read (p : req_ptr) (data len : Z) : M Z := fun s =>
  match p with
  | NULL => Ret (-1, s)
  | REQ =>
      if socket (req s) =? 0 then Ret (-1, s)
      else
        match net s with
        | [] => Ret (0, s)
        | SelectFail :: _ => Exit
        | SelectIdle :: w => Ret (0, mk_state (req s) w)
        | SelectReady ReadFail :: w => Ret (-1, mk_state (hang_up (req s)) w)
        | SelectReady (ReadBytes bs) :: w =>
            let got := firstn (Z.to_nat len) bs in
            let n := Z.of_nat (length got) in
            let w' := match skipn (Z.to_nat len) bs with
                      | [] => w
                      | later => SelectReady (ReadBytes later) :: w
                      end in
            if in_chunk data n
            then Ret (n, mk_state (set_chunk (req s)
                                     (write_at data got (chunk (req s)))) w')
            else Undef
        end
  end.

(** [n] calls of http_req_read in a row, and what each returned. *)
Fixpoint read_repeatedly (n : nat) (p : req_ptr) (data len : Z) : M (list Z) :=
  match n with
  | O => ret []
  | S n' =>
      x <- http_req_read p data len ;;
      xs <- read_repeatedly n' p data len ;;
      ret (x :: xs)
  end.

(** The states in which http_req_read returns -1: the socket is closed
    already, or it is readable and the read fails. *)
Definition read_fails (s : state) : bool :=
  (socket (req s) =? 0)
  || match net s with
     | SelectReady ReadFail :: _ => true
     | _ => false
     end.

(** *** http_req_skip_header *)

(** The test of the inner loop at index [n]. *)
Definition at_terminator (buf : list byte) (n : Z) : bool :=
  Byte.eqb (byte_at buf (n - 3)) CR && Byte.eqb (byte_at buf (n - 2)) LF
  && Byte.eqb (byte_at buf (n - 1)) CR && Byte.eqb (byte_at buf n) LF.

Inductive scan : Type :=
| Found (n : Z)
| NotFound
| Overrun.

(** [for (n = 3; n < req->chunk_len; n++)], the comparison being unsigned;
    [room] counts the indices left inside the array, and an index beyond
    it is an access outside the buffer. *)
Fixpoint find_terminator (buf : list byte) (ulen n : Z) (room : nat) : scan :=
  if n <? ulen then
    match room with
    | O => Overrun
    | S room' =>
        if at_terminator buf n then Found n
        else find_terminator buf ulen (n + 1) room'
    end
  else NotFound.

(** The start of an iteration: keep the tail of the previous read. *)
Definition keep_tail : M unit :=
  r <- get_req ;;
  if chunk_len r >? 3 then
    match memmove 0 (chunk_len r - 3) (to_size_t (chunk_len r - 3))
            (chunk r) with
    | None => undefined
    | Some b => put_req (set_chunk_len (set_chunk r b) 3)
    end
  else ret tt.

(** The end of a successful scan: drop the header and the terminator. *)
Definition drop_header (n : Z) : M Z :=
  r <- get_req ;;
  let cl := to_ssize_t (to_size_t (chunk_len r) - (n + 1)) in
  match memmove 0 (n + 1) (to_size_t cl) (chunk r) with
  | None => undefined
  | Some b => put_req (set_chunk_off (set_chunk_len (set_chunk r b) cl) 0) ;;;
              ret 1
  end.

(** One iteration of [for (;;)]: [Some v] when it ends in [return v],
    [None] when the loop goes round again. *)
Definition skip_header_iteration : M (option Z) :=
  keep_tail ;;;
  r <- get_req ;;
  got <- http_req_read REQ (chunk_len r)
           (to_size_t (CHUNK_SIZE - to_size_t (chunk_len r))) ;;
  let len := to_size_t got in
  if len <? 0 then ret (Some 0)
  else if len =? 0 then ret None
  else
    modify_req (fun r =>
      set_chunk_len r (to_ssize_t (to_size_t (chunk_len r) + len))) ;;;
    r <- get_req ;;
    match find_terminator (chunk r) (to_size_t (chunk_len r)) 3
            (Z.to_nat (CHUNK_SIZE - 3)) with
    | Found n => v <- drop_header n ;; ret (Some v)
    | NotFound => ret None
    | Overrun => undefined
    end.

(** [fuel] bounds the number of iterations. *)
Fixpoint http_req_skip_header (fuel : nat) : M Z :=
  match fuel with
  | O => fun _ => Spin
  | S fuel' =>
      v <- skip_header_iteration ;;
      match v with
      | Some v => ret v
      | None => http_req_skip_header fuel'
      end
  end.

(** *** The accessors *)

(** [req->chunk_len == 0 || (req->chunk_off + 1 > req->chunk_len)] *)
Definition exhausted (r : http_request) : bool :=
  (chunk_len r =? 0) || (chunk_off r + 1 >? chunk_len r).

(** The refill shared by the two peek functions; [false] is the early
    return taken when http_req_read fails. *)
Definition refill : M bool :=
  r <- get_req ;;
  if exhausted r then
    got <- http_req_read REQ 0 CHUNK_SIZE ;;
    modify_req (fun r => set_chunk_len r got) ;;;
    if got <? 0 then ret false
    else modify_req (fun r => set_chunk_off r 0) ;;; ret true
  else ret true.

(** The result is [NULL] ([None]) or [req->chunk + req->chunk_off], given
    by its offset. *)
Definition http_req_chunk_peek : M (option Z) :=
  ok <- refill ;;
  if ok then
    r <- get_req ;;
    if exhausted r then ret None else ret (Some (chunk_off r))
  else ret None.

Definition http_req_chunk_read : M (option Z) :=
  c <- http_req_chunk_peek ;;
  match c with
  | None => ret None
  | Some off =>
      modify_req (fun r => set_chunk_off r (chunk_len r)) ;;; ret (Some off)
  end.

Definition http_req_byte_peek : M byte :=
  ok <- refill ;;
  if ok then
    r <- get_req ;;
    if exhausted r then ret x00
    else if in_chunk (chunk_off r) 1 then ret (byte_at (chunk r) (chunk_off r))
    else undefined
  else ret x00.

Definition http_req_byte_read : M byte :=
  c <- http_req_byte_peek ;;
  if Byte.eqb c x00 then ret x00
  else modify_req (fun r => set_chunk_off r (chunk_off r + 1)) ;;; ret c.

(** The invariant of the data model. *)
Definition chunk_inv (r : http_request) : Prop :=
  0 <= chunk_off r /\ chunk_off r <= chunk_len r /\ chunk_len r <= CHUNK_SIZE.

(** What a call of an accessor does to the invariant: it is kept, except
    that a refill whose read fails leaves -1 in [chunk_len]. *)
Definition keeps_chunk_inv {A} (f : M A) : Prop :=
  forall s a s',
    chunk_inv (req s) -> f s = Ret (a, s') ->
    if exhausted (req s) && read_fails s
    then chunk_len (req s') = -1 /\ chunk_off (req s') = chunk_off (req s)
    else chunk_inv (req s').

(** The end of a run: the value returned and the buffered bytes. *)
Definition returned_with (o : outcome (Z * state)) (v : Z) (body : list byte)
  : Prop :=
  match o with
  | Ret (v', s') =>
      v' = v /\ chunk_off (req s') = 0 /\
      firstn (Z.to_nat (chunk_len (req s'))) (chunk (req s')) = body
  | _ => False
  end.

(** [n] iterations that go round again and leave an idle socket with at
    most three bytes kept. *)
Fixpoint stalls_after (n : nat) (s : state) : bool :=
  match n with
  | O =>
      negb (socket (req s) =? 0) && (chunk_len (req s) <=? 3)
      && match net s with [] => true | _ => false end
  | S n' =>
      match skip_header_iteration s with
      | Ret (None, s1) => stalls_after n' s1
      | _ => false
      end
  end.

End Http.

Module Weather.

Inductive icon_type : Type :=
| ICON_SUN
| ICON_CLOUDS
| ICON_MOON
| ICON_RAIN
| ICON_SNOW.

(** [enum json_type] of pdjson.h *)
Inductive json_type : Type :=
| JSON_ERROR
| JSON_DONE
| JSON_OBJECT
| JSON_OBJECT_END
| JSON_ARRAY
| JSON_ARRAY_END
| JSON_STRING
| JSON_NUMBER
| JSON_TRUE
| JSON_FALSE
| JSON_NULL.

Definition json_type_eqb (a b : json_type) : bool :=
  match a, b with
  | JSON_ERROR, JSON_ERROR | JSON_DONE, JSON_DONE
  | JSON_OBJECT, JSON_OBJECT | JSON_OBJECT_END, JSON_OBJECT_END
  | JSON_ARRAY, JSON_ARRAY | JSON_ARRAY_END, JSON_ARRAY_END
  | JSON_STRING, JSON_STRING | JSON_NUMBER, JSON_NUMBER
  | JSON_TRUE, JSON_TRUE | JSON_FALSE, JSON_FALSE
  | JSON_NULL, JSON_NULL => true
  | _, _ => false
  end.

(** The local enumeration of fetch_weather. *)
Inductive fetch_state : Type :=
| STATE_BEGIN
| STATE_IN_WEATHER
| STATE_IN_WEATHER_ID
| STATE_IN_WEATHER_DESC
| STATE_IN_WEATHER_ICON
| STATE_IN_MAIN
| STATE_IN_MAIN_TEMP.

(** The icon chosen at the end of fetch_weather. *)
Definition condition_icon (weather_id night : Z) : icon_type :=
  if (weather_id >=? 200) && (weather_id <=? 399) then ICON_RAIN
  else if (weather_id >=? 500) && (weather_id <=? 599) then ICON_RAIN
  else if (weather_id >=? 600) && (weather_id <=? 699) then ICON_SNOW
  else if (weather_id >=? 801) && (weather_id <=? 804) then ICON_CLOUDS
  else if night =? 0 then ICON_SUN
  else ICON_MOON.

(** [toupper] in the C locale. *)
Definition toupper (b : byte) : byte :=
  let v := byte_val b in
  if (97 <=? v) && (v <=? 122)
  then match Byte.of_N (Z.to_N (v - 32)) with Some u => u | None => b end
  else b.

(** [sizeof(current_conditions)] *)
Definition CONDITIONS_SIZE : nat := 100.

(** [strlcpy(current_conditions, s, sizeof(current_conditions))] *)
Definition strlcpy_conditions (s : list byte) : list byte :=
  firstn (CONDITIONS_SIZE - 1) s.

Definition capitalize (s : list byte) : list byte :=
  match s with
  | [] => []
  | b :: s' => toupper b :: s'
  end.

Definition failed_to_parse : list byte :=
  cstr "(Failed to parse API response)".

(** [%d] *)
Definition print_int (z : Z) : list byte :=
  cstr (DecimalString.NilZero.string_of_int (Z.to_int z)).

Section Pass.

(** The C type [double], its zero and the conversion [(int)x]. *)
Variable double : Type.
Variable double_zero : double.
Variable double_to_int : double -> Z.

(** What one call of json_next leaves: its result, whether json_get_error
    is set afterwards, and what json_get_string and json_get_number give.
    json_get_string hands out a pointer into the parser's own buffer
    ([data.string] of pdjson.h): for a String token [tok_string] is the
    text of the string, and for any other token it is what the parser has
    left in that memory, which is what a pointer obtained earlier still
    points to.  pdjson.c is not part of the sources at hand, so the parser
    is represented by the tokens it produces. *)
Record token : Type := mk_token {
  tok_type : json_type;
  tok_error : bool;
  tok_string : list byte;
  tok_number : double
}.

(** The variables of fetch_weather that the loop works on.  [str] keeps
    the text obtained for the latest String token; it is not read before
    the first one.  The parser may use the memory behind [str] again for
    a later token, so this text is what reading through [str] gives only
    while the current token is the String it was obtained for; see
    [read_str]. *)
Record pass : Type := mk_pass {
  state : fetch_state;
  str : list byte;
  conditions : list byte;
  temp : double;
  weather_id : Z;
  night : Z
}.

(** The token is a String whose text is [key]. *)
Definition holds_key (t : token) (key : string) : Prop :=
  tok_type t = JSON_STRING /\ tok_string t = cstr key.

Definition is_key (t : token) (p : pass) (key : string) : bool :=
  json_type_eqb (tok_type t) JSON_STRING && streq (str p) (cstr key).

Definition goto (p : pass) (st : fetch_state) : pass :=
  mk_pass st (str p) (conditions p) (temp p) (weather_id p) (night p).

(** [if (jt == JSON_STRING) str = json_get_string(&js, 0);] *)
Definition load_str (t : token) (p : pass) : pass :=
  if json_type_eqb (tok_type t) JSON_STRING
  then mk_pass (state p) (tok_string t) (conditions p) (temp p)
               (weather_id p) (night p)
  else p.

(** What reading through the pointer [str] gives while [t] is the current
    token: the text just obtained when [t] is a String, and otherwise what
    the parser has left behind the pointer, whatever that is. *)
Definition read_str (t : token) (p : pass) : list byte :=
  if json_type_eqb (tok_type t) JSON_STRING then str p else tok_string t.

(** The [switch (state)] of the loop body.  Only STATE_IN_WEATHER_DESC
    reads through [str] without a test of the token's type.  [nth 2 _ x00]
    is [str[2]] for a text of at least two bytes, the terminating NUL
    counted; for a shorter icon text, which the API does not send, the
    byte behind the terminator is taken to be 0. *)
Definition dispatch (t : token) (p : pass) : pass :=
  match state p with
  | STATE_BEGIN =>
      if is_key t p "weather" then goto p STATE_IN_WEATHER
      else if is_key t p "main" then goto p STATE_IN_MAIN
      else p
  | STATE_IN_WEATHER =>
      if is_key t p "description" then goto p STATE_IN_WEATHER_DESC
      else if is_key t p "id" then goto p STATE_IN_WEATHER_ID
      else if is_key t p "icon" then goto p STATE_IN_WEATHER_ICON
      else if json_type_eqb (tok_type t) JSON_OBJECT_END
      then goto p STATE_BEGIN
      else p
  | STATE_IN_WEATHER_ID =>
      mk_pass STATE_IN_WEATHER (str p) (conditions p) (temp p)
        (if json_type_eqb (tok_type t) JSON_NUMBER
         then double_to_int (tok_number t) else weather_id p)
        (night p)
  | STATE_IN_WEATHER_ICON =>
      mk_pass STATE_IN_WEATHER (str p) (conditions p) (temp p) (weather_id p)
        (if json_type_eqb (tok_type t) JSON_STRING
         then (if Byte.eqb (nth 2 (str p) x00) "n" then 1 else 0)
         else night p)
  | STATE_IN_WEATHER_DESC =>
      mk_pass STATE_IN_WEATHER (str p)
        (capitalize (strlcpy_conditions (read_str t p)))
        (temp p) (weather_id p) (night p)
  | STATE_IN_MAIN =>
      if is_key t p "temp" then goto p STATE_IN_MAIN_TEMP else p
  | STATE_IN_MAIN_TEMP =>
      mk_pass STATE_IN_MAIN (str p) (conditions p)
        (if json_type_eqb (tok_type t) JSON_NUMBER
         then tok_number t else temp p)
        (weather_id p) (night p)
  end.

Definition step (t : token) (p : pass) : pass := dispatch t (load_str t p).

(** How the loop ended. *)
Inductive ending : Type := Done | Error.

(** [for (; jt = json_next(&js), jt != JSON_DONE && !json_get_error(&js);)];
    a parser with no token left answers JSON_DONE. *)
Fixpoint run_pass (toks : list token) (p : pass) : ending * pass :=
  match toks with
  | [] => (Done, p)
  | t :: toks' =>
      if json_type_eqb (tok_type t) JSON_DONE then (Done, p)
      else if tok_error t then (Error, p)
      else run_pass toks' (step t p)
  end.

(** The globals fetch_weather writes, and the setting it reads. *)
Record globals : Type := mk_globals {
  current_conditions : list byte;
  current_temp : double;
  current_condition_icon : icon_type
}.

(** The values set before the loop. *)
Definition initial_pass : pass :=
  mk_pass STATE_BEGIN [] failed_to_parse double_zero 0 0.

(** The text appended by the last snprintf: [", %d%c%c"]. *)
Definition temperature_suffix (fahrenheit : bool) (t : double) : list byte :=
  cstr ", " ++ print_int (double_to_int t)
    ++ [xb0; if fahrenheit then "F"%byte else "C"%byte].

Definition append_conditions (cc suffix : list byte) : list byte :=
  firstn (CONDITIONS_SIZE - 1) (cc ++ suffix).

(** What follows the header: the pass, the title and the icon. *)
Definition read_body (fahrenheit : bool) (toks : list token) : globals :=
  let p := snd (run_pass toks initial_pass) in
  mk_globals
    (append_conditions (conditions p) (temperature_suffix fahrenheit (temp p)))
    (temp p)
    (condition_icon (weather_id p) (night p)).

(** [conn] is what http_get returned: NULL, or a connection together with
    what the network will deliver on it.  The result is the return value
    and the globals. *)
Definition fetch_weather (fahrenheit : bool) (conn : option Http.state)
    (fuel : nat) (toks : list token) (g : globals) : outcome (Z * globals) :=
  match conn with
  | None => Ret (1, g)
  | Some s =>
      match Http.http_req_skip_header fuel s with
      | Ret (r, _) =>
          if r =? 1 then Ret (0, read_body fahrenheit toks)
          else Ret (1, g)
      | Exit => Exit
      | Undef => Undef
      | Spin => Spin
      end
  end.

End Pass.

Arguments tok_type {double} t.
Arguments tok_error {double} t.
Arguments tok_string {double} t.
Arguments tok_number {double} t.
Arguments state {double} p.
Arguments str {double} p.
Arguments conditions {double} p.
Arguments temp {double} p.
Arguments weather_id {double} p.
Arguments night {double} p.
Arguments holds_key {double} t key.
Arguments is_key {double} t p key.
Arguments goto {double} p st.
Arguments load_str {double} t p.
Arguments read_str {double} t p.
Arguments dispatch {double} double_to_int t p.
Arguments step {double} double_to_int t p.
Arguments run_pass {double} double_to_int toks p.
Arguments current_conditions {double} g.
Arguments current_temp {double} g.
Arguments current_condition_icon {double} g.
Arguments initial_pass {double} double_zero.
Arguments temperature_suffix {double} double_to_int fahrenheit t.
Arguments read_body {double} double_zero double_to_int fahrenheit toks.
Arguments fetch_weather {double} double_zero double_to_int
  fahrenheit conn fuel toks g.

(** *** Inputs for the examples *)

(** Tokens with integral numbers, for the examples. *)
Definition tok (ty : json_type) (text : string) (n : Z) : token Z :=
  mk_token Z ty false (cstr text) n.

Definition tok_error_here : token Z := mk_token Z JSON_ERROR true [] 0.

(** The answer to a request whose header ends in the first read. *)
Definition answered : Http.state :=
  Http.mk_state (Http.fresh 3 false)
    [Http.SelectReady
       (Http.ReadBytes
          (cstr "HTTP/1.0 200 OK" ++ [Http.CR; Http.LF; Http.CR; Http.LF]))].

(** The tokens of [{"weather":[{"id":"oops"]}], the malformed document of
    the specification. *)
Definition malformed : list (token Z) :=
  [tok JSON_OBJECT "" 0; tok JSON_STRING "weather" 0; tok JSON_ARRAY "" 0;
   tok JSON_OBJECT "" 0; tok JSON_STRING "id" 0; tok JSON_STRING "oops" 0;
   tok_error_here].

Definition untouched : globals Z := mk_globals Z (cstr "Rain, 50") 50 ICON_RAIN.

(** The tokens of [{"main":{"temp":null,"pressure":1013}}]. *)
Definition temp_null : list (token Z) :=
  [tok JSON_OBJECT "" 0; tok JSON_STRING "main" 0; tok JSON_OBJECT "" 0;
   tok JSON_STRING "temp" 0; tok JSON_NULL "" 0;
   tok JSON_STRING "pressure" 0; tok JSON_NUMBER "" 1013;
   tok JSON_OBJECT_END "" 0; tok JSON_OBJECT_END "" 0].

(** A description of 120 bytes, and the pass waiting for a description. *)
Definition long_description : token Z :=
  mk_token Z JSON_STRING false (repeat "a"%byte 120) 0.

Definition awaiting_description : pass Z :=
  mk_pass Z STATE_IN_WEATHER_DESC (cstr "description") failed_to_parse 0 0 0.

End Weather.

Module Encode.

(** *** url_encode *)

(** The test of the loop body: letters, digits and [-], [_], [.], [~]. *)
Definition unreserved (b : byte) : bool :=
  let v := byte_val b in
  ((65 <=? v) && (v <=? 90)) || ((97 <=? v) && (v <=? 122))
  || ((48 <=? v) && (v <=? 57))
  || Byte.eqb b "-" || Byte.eqb b "_" || Byte.eqb b "." || Byte.eqb b "~".

(** A digit of [%X]. *)
Definition hex_digit (v : Z) : byte :=
  nth (Z.to_nat v) (cstr "0123456789ABCDEF") "0"%byte.

(** What ["%%%02X"] prints for an unsigned char. *)
Definition percent_code (c : byte) : list byte :=
  ["%"%byte; hex_digit (byte_val c / 16); hex_digit (byte_val c mod 16)].

(** Memory obtained from malloc: a cell holds nothing until it is written. *)
Definition buffer : Type := list (option byte).

(** [buf[i] = b]; there is no result when [i] lies outside the buffer. *)
Definition poke (buf : buffer) (i : Z) (b : byte) : option buffer :=
  if (0 <=? i) && (i <? Z.of_nat (length buf))
  then Some (firstn (Z.to_nat i) buf ++ Some b :: skipn (S (Z.to_nat i)) buf)
  else None.

Fixpoint poke_all (buf : buffer) (i : Z) (bs : list byte) : option buffer :=
  match bs with
  | [] => Some buf
  | b :: bs' =>
      match poke buf i b with
      | Some buf' => poke_all buf' (i + 1) bs'
      | None => None
      end
  end.

(** [snprintf(ret + len, 4, "%%%02X", c)]: three characters and the NUL. *)
Definition snprintf_code (buf : buffer) (len : Z) (c : byte) : option buffer :=
  poke_all buf len (percent_code c ++ [x00]).

(** The [for] loop under the label [encode]: without a buffer it only
    counts, with a buffer it also writes. *)
Fixpoint encode_loop (ret : option buffer) (str : list byte) (len : Z)
  : outcome (option buffer * Z) :=
  match str with
  | [] => Ret (ret, len)
  | c :: str' =>
      if unreserved c then
        match ret with
        | Some buf =>
            match poke buf len c with
            | Some buf' => encode_loop (Some buf') str' (len + 1)
            | None => Undef
            end
        | None => encode_loop None str' (len + 1)
        end
      else
        match ret with
        | Some buf =>
            match snprintf_code buf len c with
            | Some buf' => encode_loop (Some buf') str' (len + 3)
            | None => Undef
            end
        | None => encode_loop None str' (len + 3)
        end
  end.

(** The C string that starts a buffer: the cells before the first NUL,
    all of which have to be written. *)
Fixpoint c_string (buf : buffer) : outcome (list byte) :=
  match buf with
  | [] => Undef
  | None :: _ => Undef
  | Some b :: buf' =>
      if Byte.eqb b x00 then Ret []
      else match c_string buf' with
           | Ret s => Ret (b :: s)
           | other => other
           end
  end.

(** The first run of the loop measures, [malloc(len + 1)] gives the
    buffer, the second run fills it and the NUL is put after it. *)
Definition url_encode (str : list byte) : outcome (list byte) :=
  match encode_loop None str 0 with
  | Ret (_, len) =>
      match encode_loop (Some (repeat None (Z.to_nat (len + 1)))) str 0 with
      | Ret (Some buf, len') =>
          match poke buf len' x00 with
          | Some buf' => c_string buf'
          | None => Undef
          end
      | Ret (None, _) => Undef
      | Exit => Exit
      | Undef => Undef
      | Spin => Spin
      end
  | Exit => Exit
  | Undef => Undef
  | Spin => Spin
  end.

(** The text that stands for one byte, and for a string. *)
Definition encoded_byte (c : byte) : list byte :=
  if unreserved c then [c] else percent_code c.

Definition encoded (str : list byte) : list byte := flat_map encoded_byte str.

(** The byte a percent code stands for. *)
Definition hex_value (b : byte) : Z :=
  let v := byte_val b in
  if (48 <=? v) && (v <=? 57) then v - 48 else v - 55.

Definition decoded_byte (h l : byte) : byte :=
  match Byte.of_N (Z.to_N (16 * hex_value h + hex_value l)) with
  | Some b => b
  | None => x00
  end.

(** The reading of a percent-encoded text, used to state that url_encode
    loses nothing. *)
Fixpoint percent_decode (s : list byte) : list byte :=
  match s with
  | [] => []
  | b :: s' =>
      if Byte.eqb b "%" then
        match s' with
        | h :: l :: s'' => decoded_byte h l :: percent_decode s''
        | _ => b :: percent_decode s'
        end
      else b :: percent_decode s'
  end.

End Encode.

Module Stream.

Import Http.

(** *** Runs of the transport *)

(** [n] calls of http_req_byte_read in a row, and the bytes they return;
    this is how the callbacks handed to the JSON parser use a connection. *)
Fixpoint read_bytes (n : nat) : M (list byte) :=
  match n with
  | O => ret []
  | S n' =>
      c <- http_req_byte_read ;;
      cs <- read_bytes n' ;;
      ret (c :: cs)
  end.

(** The four bytes that end a header. *)
Definition terminator : list byte := [CR; LF; CR; LF].

Fixpoint starts_with (p s : list byte) : bool :=
  match p, s with
  | [], _ => true
  | x :: p', y :: s' => Byte.eqb y x && starts_with p' s'
  | _ :: _, [] => false
  end.

(** A response cut at the first terminator: what stands before it and
    what follows it. *)
Fixpoint split_header (s : list byte) : option (list byte * list byte) :=
  match s with
  | [] => None
  | b :: s' =>
      if starts_with terminator s then Some ([], skipn 4 s)
      else match split_header s' with
           | Some (h, body) => Some (b :: h, body)
           | None => None
           end
  end.

(** An event that gives http_req_read nothing: select reports no data, or
    the read returns 0 bytes because the peer has closed. *)
Definition quiet (ev : net_event) : bool :=
  match ev with
  | SelectIdle => true
  | SelectReady (ReadBytes []) => true
  | _ => false
  end.

(** An event that brings bytes, none of them 0, or nothing at all; no
    failure of select or of the read. *)
Definition harmless (ev : net_event) : Prop :=
  match ev with
  | SelectIdle => True
  | SelectReady (ReadBytes bs) => Forall (fun b => b <> x00) bs
  | _ => False
  end.

(** What the byte accessors return for these events once the buffer is
    used up: the bytes of every piece in order, and a single 0 for every
    poll or read that brings nothing. *)
Fixpoint seen (evs : network) : list byte :=
  match evs with
  | [] => []
  | SelectReady (ReadBytes (b :: bs)) :: evs' => (b :: bs) ++ seen evs'
  | _ :: evs' => x00 :: seen evs'
  end.

(** The connection after a poll or a read that brought nothing. *)
Definition starved (r : http_request) : http_request :=
  mk_req (socket r) (https r) (tls r) (chunk r) 0 0.

(** The events of a peer that sends the given pieces one after the other. *)
Definition delivers (pieces : list (list byte)) : network :=
  map (fun bs => SelectReady (ReadBytes bs)) pieces.

(** The connection once [a], the start of what the peer sent, has been
    read into the buffer. *)
Definition refilled (r : http_request) (a : list byte) : http_request :=
  mk_req (socket r) (https r) (tls r) (write_at 0 a (chunk r))
         (Z.of_nat (length a)) 0.

Definition pending (bs : list byte) (w : network) : network :=
  match skipn (Z.to_nat CHUNK_SIZE) bs with
  | [] => w
  | later => SelectReady (ReadBytes later) :: w
  end.

(** The connection once the header has been dropped from what the first
    read [bs] brought, leaving [body]. *)
Definition header_skipped (r : http_request) (bs body : list byte)
  : http_request :=
  mk_req (socket r) (https r) (tls r)
         (write_at 0 body (write_at 0 bs (chunk r)))
         (Z.of_nat (length body)) 0.

End Stream.

Module Fetch.

Import Weather.

(** *** The request of fetch_weather *)

(** The text [snprintf(url, 256, ...)] leaves in [url]: the format filled
    in and cut after 255 bytes.  [tls_build] tells whether the program was
    compiled with TLS. *)
Definition weather_url (tls_build : bool) (zipcode api_key : list byte)
    (fahrenheit : bool) : list byte :=
  firstn 255
    ((if tls_build then cstr "https" else cstr "http")
     ++ cstr "://api.openweathermap.org/data/2.5/weather?zip=" ++ zipcode
     ++ cstr "&appid=" ++ api_key
     ++ cstr "&units="
     ++ (if fahrenheit then cstr "imperial" else cstr "metric")
     ++ cstr "&mode=json").

(** The path and query of that request before it is cut. *)
Definition weather_path (zipcode api_key : list byte) (fahrenheit : bool)
  : list byte :=
  cstr "/data/2.5/weather?zip=" ++ zipcode
  ++ cstr "&appid=" ++ api_key
  ++ cstr "&units="
  ++ (if fahrenheit then cstr "imperial" else cstr "metric")
  ++ cstr "&mode=json".

(** *** The shape of the answer *)

Section Document.

Variable double : Type.
Variable zero : double.

(** Tokens as json_next gives them; the fields a kind of token does not
    define are left empty. *)
Definition mark (ty : json_type) : token double :=
  mk_token double ty false [] zero.

Definition text (s : list byte) : token double :=
  mk_token double JSON_STRING false s zero.

Definition key (k : string) : token double := text (cstr k).

Definition number (x : double) : token double :=
  mk_token double JSON_NUMBER false [] x.

(** The tokens of an answer with one weather entry and the temperature:
    [{"weather":[{"id":..,"main":..,"description":..,"icon":..}],
      "main":{"temp":..}}]. *)
Definition weather_document (id : double) (group desc icon : list byte)
    (t : double) : list (token double) :=
  [mark JSON_OBJECT;
   key "weather"; mark JSON_ARRAY; mark JSON_OBJECT;
   key "id"; number id;
   key "main"; text group;
   key "description"; text desc;
   key "icon"; text icon;
   mark JSON_OBJECT_END; mark JSON_ARRAY_END;
   key "main"; mark JSON_OBJECT;
   key "temp"; number t;
   mark JSON_OBJECT_END;
   mark JSON_OBJECT_END; mark JSON_DONE].

End Document.

Arguments mark {double} zero ty.
Arguments text {double} zero s.
Arguments key {double} zero k.
Arguments number {double} x.
Arguments weather_document {double} zero id group desc icon t.

End Fetch.

Module Connect.

Import Http.

(** *** http_get *)

(** What the system answers to the calls of http_get.  The TLS set-up
    calls are taken to succeed, as [malloc] is. *)
Record host_answers : Type := mk_host_answers {
  resolves : bool;        (* gethostbyname(...) != NULL *)
  new_socket : Z;         (* the result of socket() *)
  connects : bool;        (* connect(...) != -1 *)
  tls_connects : bool;    (* tls_connect_socket(...) == 0 *)
  tls_handshakes : bool;  (* the handshake loop ends with 0 *)
  written : Z -> Z        (* the result of write, or of the tls_write
                             loop, for a given length *)
}.

(** The text the format of the request gives. *)
Definition request_text (path host progname : list byte) : list byte :=
  cstr "GET " ++ path ++ cstr " HTTP/1.0" ++ [CR; LF]
  ++ cstr "Host: " ++ host ++ [CR; LF]
  ++ cstr "User-Agent: " ++ progname ++ [CR; LF]
  ++ cstr "Accept: */*" ++ [CR; LF]
  ++ [CR; LF].

(** [snprintf(buf, size, ...)] for a text: the bytes left in the buffer,
    the NUL included, and the value returned. *)
Definition snprintf_text (size : Z) (text : list byte) : list byte * Z :=
  (if size <=? 0 then []
   else firstn (Z.to_nat (size - 1)) text ++ [x00],
   Z.of_nat (length text)).

(** A connection with the bytes that went out on it. *)
Record connected : Type := mk_connected {
  conn : http_request;
  sent : list byte
}.

(** [tls_build] tells whether the file was compiled with TLS;
    [progname] is [__progname]. *)
Definition http_get (tls_build : bool) (progname : list byte)
    (sys : host_answers) (surl : list byte) : outcome (option connected) :=
  match Url.url_parse surl with
  | Ret None => Ret None
  | Ret (Some url) =>
      let is_https := streq (Url.scheme url) (cstr "https") in
      if is_https && negb tls_build then Exit
      else if negb (resolves sys) then Ret None
      else if new_socket sys =? -1 then Exit
      else if negb (connects sys) then Ret None
      else if is_https && negb (tls_connects sys) then Ret None
      else if is_https && negb (tls_handshakes sys) then Ret None
      else
        let tlen :=
          256 + Z.of_nat (length (Url.host url))
          + Z.of_nat (length (Url.path url)) in
        let '(message, len) :=
          snprintf_text tlen
            (request_text (Url.path url) (Url.host url) progname) in
        if len >? tlen then Exit
        else if negb (written sys len =? len) then Exit
        else Ret (Some (mk_connected
                          (fresh (new_socket sys) is_https)
                          (firstn (Z.to_nat len) message)))
  | Exit => Exit
  | Undef => Undef
  | Spin => Spin
  end.

(** The answers with which http_get gets as far as its return. *)
Definition goes_through (tls_build : bool) (sys : host_answers)
    (url : Url.url) (progname : list byte) : Prop :=
  (Url.scheme url = cstr "https" ->
   tls_build = true /\ tls_connects sys = true /\ tls_handshakes sys = true)
  /\ resolves sys = true /\ new_socket sys <> -1 /\ connects sys = true
  /\ written sys
       (Z.of_nat (length (request_text (Url.path url) (Url.host url) progname)))
     = Z.of_nat (length (request_text (Url.path url) (Url.host url) progname)).

(** A system that answers every call with success. *)
Definition obliging (fd : Z) : host_answers :=
  mk_host_answers true fd true true true (fun n => n).

End Connect.

Module Clock.

(** *** The waiting of the main loop *)

(** A [long] converted to [int]: reduced modulo 2^32 into the signed
    range. *)
Definition to_int (z : Z) : Z :=
  let u := z mod 2 ^ 32 in if u <? 2 ^ 31 then u else u - 2 ^ 32.

(** [sleep_secs] as main computes it from [weather_check_secs] and
    [delta.tv_sec], the whole seconds since the last check. *)
Definition sleep_secs (weather_check_secs delta_sec : Z) : Z :=
  if delta_sec >? weather_check_secs then 0
  else weather_check_secs - delta_sec.

(** The timeout handed to poll, an [int] of milliseconds. *)
Definition poll_timeout (weather_check_secs delta_sec : Z) : Z :=
  to_int (sleep_secs weather_check_secs delta_sec * 1000).

(** The test made after poll: fetch_weather when it holds, redraw_icon
    otherwise. *)
Definition fetch_due (weather_check_secs delta_sec : Z) : bool :=
  delta_sec >=? weather_check_secs.

End Clock.

(** * Properties *)

(** ** Bytes and scanning *)

Lemma byte_eqb_eq (a b : byte) : Byte.eqb a b = true <-> a = b.
Proof.
  split; [apply Byte.byte_dec_bl | apply Byte.byte_dec_lb].
Qed.

Lemma byte_eqb_neq (a b : byte) : Byte.eqb a b = false <-> a <> b.
Proof.
  split.
  - apply Byte.eqb_false.
  - intros Hne. destruct (Byte.eqb a b) eqn:E; [|reflexivity].
    apply byte_eqb_eq in E. contradiction.
Qed.

Lemma streq_eq (a b : list byte) : streq a b = true <-> a = b.
Proof.
  revert b. induction a as [|x a IH]; intros [|y b]; simpl;
    try (split; [discriminate | discriminate]); [tauto|].
  rewrite andb_true_iff, byte_eqb_eq, IH.
  split; [intros [-> ->]; reflexivity | intros [= -> ->]; auto].
Qed.

Lemma span_app (p : byte -> bool) (m r : list byte) :
  Forall (fun b => p b = true) m ->
  match r with [] => True | b :: _ => p b = false end ->
  span p (m ++ r) = (m, r).
Proof.
  intros Hm Hr. induction Hm as [|b m Hb _ IH]; simpl.
  - destruct r as [|b r]; [reflexivity|]. simpl. now rewrite Hr.
  - now rewrite Hb, IH.
Qed.

Lemma span_whole (p : byte -> bool) (m : list byte) :
  Forall (fun b => p b = true) m -> span p m = (m, []).
Proof.
  intros Hm. rewrite <- (app_nil_r m) at 1. now apply span_app.
Qed.

Lemma span_inv (p : byte -> bool) (s m r : list byte) :
  span p s = (m, r) ->
  s = m ++ r /\ Forall (fun b => p b = true) m /\
  match r with [] => True | b :: _ => p b = false end.
Proof.
  revert m r. induction s as [|b s IH]; simpl; intros m r H.
  - injection H as <- <-. auto.
  - destruct (p b) eqn:E.
    + destruct (span p s) as [m' r'] eqn:E'. injection H as <- <-.
      destruct (IH _ _ eq_refl) as (-> & Hm & Hr). auto.
    + injection H as <- <-. simpl. auto.
Qed.

Lemma span_length (p : byte -> bool) (s : list byte) :
  (length (snd (span p s)) <= length s)%nat.
Proof.
  destruct (span p s) as [m r] eqn:E. apply span_inv in E as (-> & _ & _).
  simpl. rewrite length_app. lia.
Qed.





(** ** url_parse *)

Lemma scan_until_app (c : byte) (m r : list byte) :
  m <> [] -> Forall (fun b => b <> c) m ->
  match r with [] => True | b :: _ => b = c end ->
  Url.scan_until c (m ++ r) = Some (m, r).
Proof.
  intros Hne Hm Hr. unfold Url.scan_until.
  rewrite (span_app _ m r).
  - destruct m; [contradiction|reflexivity].
  - eapply Forall_impl; [|exact Hm]. simpl. intros b Hb.
    apply negb_true_iff, byte_eqb_neq, Hb.
  - destruct r as [|b r]; [exact I|]. subst b.
    apply negb_false_iff, byte_eqb_eq. reflexivity.
Qed.


Lemma skip_space_id (s : list byte) :
  match s with [] => True | b :: _ => isspace b = false end ->
  Url.skip_space s = s.
Proof.
  unfold Url.skip_space. destruct s as [|b s]; simpl; [reflexivity|].
  intros ->. reflexivity.
Qed.

Lemma scan_word_whole (w : list byte) :
  w <> [] -> Forall (fun b => isspace b = false) w ->
  Url.scan_word w = Some (w, []).
Proof.
  intros Hne Hw. unfold Url.scan_word.
  rewrite skip_space_id by (destruct Hw; auto).
  rewrite span_whole.
  - destruct w; [contradiction|reflexivity].
  - eapply Forall_impl; [|exact Hw]. simpl. intros b ->. reflexivity.
Qed.

Lemma scan_word_inv (s w r : list byte) :
  Url.scan_word s = Some (w, r) ->
  w <> [] /\ Forall (fun b => isspace b = false) w /\
  Url.skip_space s = w ++ r.
Proof.
  unfold Url.scan_word. intros H.
  destruct (span _ (Url.skip_space s)) as [m' r'] eqn:E.
  apply span_inv in E as (E & Hm & _).
  destruct m' as [|b m']; [discriminate|]. injection H as <- <-.
  repeat split; try discriminate; [|exact E].
  eapply Forall_impl; [|exact Hm]. simpl. intros a Ha.
  now apply negb_true_iff.
Qed.


Lemma consumed_all (s : list byte) :
  (Url.consumed s [] >? Z.of_nat (length s)) = false.
Proof. unfold Url.consumed. simpl. lia. Qed.

Lemma Forall_app_l {A} (P : A -> Prop) (l1 l2 : list A) :
  Forall P (l1 ++ l2) -> Forall P l1.
Proof. intros H. apply Forall_app in H. tauto. Qed.

Lemma scan_literal_app (lit s : list byte) :
  Url.scan_literal lit (lit ++ s) = Some (tt, s).
Proof.
  induction lit as [|c lit IH]; simpl; [reflexivity|].
  rewrite (Byte.byte_dec_lb (eq_refl c)). exact IH.
Qed.

(** An input without a port: scheme://host/path. *)
Lemma url_parse_without_port (sch hst pth : list byte) :
  sch <> [] -> Forall (fun b => b <> ":"%byte) sch ->
  hst <> [] -> Forall (fun b => b <> ":"%byte /\ b <> "/"%byte) hst ->
  (exists p, pth = "/"%byte :: p) ->
  Forall (fun b => isspace b = false /\ b <> ":"%byte) pth ->
  Url.url_parse (sch ++ cstr "://" ++ hst ++ pth)
  = if streq sch (cstr "http") then Ret (Some (Url.mk_url sch hst 80 pth))
    else if streq sch (cstr "https")
         then Ret (Some (Url.mk_url sch hst 443 pth))
         else Ret None.
Proof.
  intros Hs1 Hs2 Hh1 Hh2 [p ->] Hp.
  assert (Hrest : Forall (fun b => b <> ":"%byte) (hst ++ "/"%byte :: p)).
  { apply Forall_app. split; eapply Forall_impl; try eassumption;
      simpl; tauto. }
  unfold Url.url_parse, Url.sscanf_port, Url.sscanf_noport.
  rewrite scan_until_app by (simpl; auto). cbv beta iota.
  rewrite scan_literal_app. cbv beta iota.
  rewrite <- (app_nil_r (hst ++ "/"%byte :: p)) at 1.
  rewrite scan_until_app by (simpl; auto; now destruct hst).
  cbv beta iota.
  change (Url.scan_literal (cstr ":") []) with (@None (unit * list byte)).
  cbv beta iota.
  rewrite scan_until_app;
    [| assumption | eapply Forall_impl; [|exact Hh2]; simpl; tauto
     | reflexivity ].
  cbv beta iota.
  rewrite scan_word_whole;
    [| discriminate | eapply Forall_impl; [|exact Hp]; simpl; tauto ].
  cbv beta iota zeta. rewrite consumed_all. reflexivity.
Qed.





(** ** The directives, read in both directions *)













(** ** The two scan forms, read in both directions *)






(** ** url_parse on the inputs of each form *)




Ltac forall_bytes :=
  repeat first [ apply Forall_nil | apply Forall_cons ];
  repeat split; try discriminate; try reflexivity.











(** ** The transport *)

Import Http.

Lemma bind_inv {A B} (m : M A) (k : A -> M B) (s s' : state) (b : B) :
  bind m k s = Ret (b, s') ->
  exists a s1, m s = Ret (a, s1) /\ k a s1 = Ret (b, s').
Proof.
  unfold bind. destruct (m s) as [[a s1]| | |]; try discriminate. eauto.
Qed.

Lemma to_size_t_range (z : Z) : 0 <= to_size_t z < 2 ^ 64.
Proof. unfold to_size_t. apply Z.mod_pos_bound. lia. Qed.

Lemma to_ssize_t_range (z : Z) : - 2 ^ 63 <= to_ssize_t z < 2 ^ 63.
Proof.
  unfold to_ssize_t. pose proof (Z.mod_pos_bound z (2 ^ 64)).
  destruct (z mod 2 ^ 64 <? 2 ^ 63) eqn:E; lia.
Qed.

Lemma to_size_t_small (z : Z) : 0 <= z < 2 ^ 64 -> to_size_t z = z.
Proof. apply Z.mod_small. Qed.

Lemma to_ssize_t_small (z : Z) : - 2 ^ 63 <= z < 2 ^ 63 -> to_ssize_t z = z.
Proof.
  intros H. unfold to_ssize_t.
  destruct (Z_lt_le_dec z 0).
  - replace (z mod 2 ^ 64) with (z + 2 ^ 64)
      by (apply Z.mod_unique with (-1); lia).
    destruct (z + 2 ^ 64 <? 2 ^ 63) eqn:E; lia.
  - rewrite Z.mod_small by lia.
    destruct (z <? 2 ^ 63) eqn:E; lia.
Qed.

(** What http_req_read returns, and what it leaves of the connection. *)
Lemma http_req_read_spec (data len : Z) (s s' : state) (n : Z) :
  http_req_read REQ data len s = Ret (n, s') ->
  chunk_len (req s') = chunk_len (req s) /\
  chunk_off (req s') = chunk_off (req s) /\
  (if read_fails s then n = -1 /\ socket (req s') = 0
   else 0 <= n /\ n <= Z.max 0 len /\ socket (req s') = socket (req s)).
Proof.
  unfold http_req_read, read_fails.
  destruct (socket (req s) =? 0) eqn:E0.
  - cbn [orb]. intros [= <- <-]. apply Z.eqb_eq in E0. auto.
  - cbn [orb]. destruct (net s) as [|[| |[|bs]] w].
    + intros [= <- <-]. repeat split; lia.
    + discriminate.
    + intros [= <- <-]. cbn. repeat split; lia.
    + intros [= <- <-]. cbn. auto.
    + destruct (in_chunk _ _); [|discriminate].
      intros [= <- <-]. cbn. repeat split; try lia.
      rewrite length_firstn. lia.
Qed.

Lemma read_repeatedly_closed (n : nat) (p : req_ptr) (data len : Z)
    (s : state) :
  p = NULL \/ socket (req s) = 0 ->
  read_repeatedly n p data len s = Ret (repeat (-1) n, s).
Proof.
  intros H. induction n as [|n IH]; [reflexivity|].
  cbn [read_repeatedly repeat]. unfold bind at 1.
  assert (E : http_req_read p data len s = Ret (-1, s)).
  { unfold http_req_read. destruct H as [-> | H]; [reflexivity|].
    destruct p; [reflexivity|]. now rewrite H. }
  rewrite E. unfold bind. rewrite IH. reflexivity.
Qed.

(** C2.  On a connection whose socket is open, http_req_read returns 0
    when select reports nothing to read and leaves the connection as it
    was; when the read fails it returns -1 and clears the socket field,
    after which every call returns -1, as every call on NULL does.  A
    result of -1 always comes with a cleared socket field, any other result
    is at least 0 and leaves the socket field alone. *)
Theorem http_req_read_idle_or_failed (r : http_request) (w : network)
    (data len : Z) :
  socket r <> 0 ->
  http_req_read REQ data len (mk_state r (SelectIdle :: w))
  = Ret (0, mk_state r w) /\
  http_req_read REQ data len (mk_state r [])
  = Ret (0, mk_state r []) /\
  http_req_read REQ data len (mk_state r (SelectReady ReadFail :: w))
  = Ret (-1, mk_state (hang_up r) w) /\
  socket (hang_up r) = 0 /\
  (forall n data' len' w',
     read_repeatedly n REQ data' len' (mk_state (hang_up r) w')
     = Ret (repeat (-1) n, mk_state (hang_up r) w')) /\
  (forall n data' len' s,
     read_repeatedly n NULL data' len' s = Ret (repeat (-1) n, s)) /\
  (forall w' n s',
     http_req_read REQ data len (mk_state r w') = Ret (n, s') ->
     (n = -1 /\ socket (req s') = 0) \/
     (0 <= n /\ socket (req s') = socket r)).
Proof.
  intros Hopen. apply Z.eqb_neq in Hopen.
  unfold http_req_read at 1 2 3. cbn [req net]. rewrite Hopen.
  repeat split.
  - intros. apply read_repeatedly_closed. right. reflexivity.
  - intros. apply read_repeatedly_closed. left. reflexivity.
  - intros w' n s' H. apply http_req_read_spec in H as (_ & _ & H).
    destruct (read_fails _); [left | right]; tauto.
Qed.

Lemma http_req_read_idle_or_failed_witness :
  http_req_read REQ 0 CHUNK_SIZE (mk_state (fresh 3 false) [SelectIdle])
  = Ret (0, mk_state (fresh 3 false) []) /\
  http_req_read REQ 0 CHUNK_SIZE
    (mk_state (fresh 3 false) [SelectReady ReadFail])
  = Ret (-1, mk_state (hang_up (fresh 3 false)) []).
Proof.
  destruct (http_req_read_idle_or_failed (fresh 3 false) [] 0 CHUNK_SIZE)
    as (H1 & _ & H2 & _); [discriminate|].
  split; [exact H1 | exact H2].
Defined.

(** ** http_req_skip_header *)

Lemma drop_header_spec (n : Z) (s s' : state) (r : Z) :
  drop_header n s = Ret (r, s') ->
  r = 1 /\ chunk_off (req s') = 0 /\
  0 <= chunk_len (req s') <= CHUNK_SIZE /\ socket (req s') = socket (req s).
Proof.
  unfold drop_header, bind, get_req.
  set (cl := to_ssize_t _).
  destruct (memmove 0 (n + 1) (to_size_t cl) (chunk (req s))) as [b|] eqn:E;
    [|discriminate].
  cbn. intros [= <- <-]. cbn.
  unfold memmove in E.
  destruct (in_chunk 0 (to_size_t cl)) eqn:E1; [|discriminate].
  unfold in_chunk in E1.
  pose proof (to_ssize_t_range (to_size_t (chunk_len (req s)) - (n + 1))) as R.
  fold cl in R.
  assert (B : to_size_t cl <= CHUNK_SIZE) by lia.
  unfold to_size_t, CHUNK_SIZE in *.
  destruct (Z_lt_le_dec cl 0).
  - replace (cl mod 2 ^ 64) with (cl + 2 ^ 64) in B
      by (apply Z.mod_unique with (-1); lia).
    lia.
  - rewrite Z.mod_small in B by lia. repeat split; lia.
Qed.

(** An iteration ends the loop only through the successful scan. *)
Lemma skip_header_iteration_returns (s s' : state) (v : Z) :
  skip_header_iteration s = Ret (Some v, s') ->
  v = 1 /\ chunk_inv (req s').
Proof.
  unfold skip_header_iteration. intros H.
  apply bind_inv in H as ([] & s1 & _ & H).
  apply bind_inv in H as (r & s2 & _ & H).
  apply bind_inv in H as (got & s3 & _ & H).
  pose proof (to_size_t_range got) as R.
  destruct (to_size_t got <? 0) eqn:E0; [lia|].
  destruct (to_size_t got =? 0); [discriminate|].
  apply bind_inv in H as ([] & s4 & _ & H).
  apply bind_inv in H as (r4 & s5 & _ & H).
  destruct (find_terminator _ _ _ _); try discriminate.
  apply bind_inv in H as (v' & s6 & H & E). injection E as <- <-.
  apply drop_header_spec in H as (-> & ? & ? & _).
  split; [reflexivity|]. unfold chunk_inv. lia.
Qed.

(** Whenever http_req_skip_header returns, it returns 1, with the cursor
    at 0 and the length inside the buffer. *)
Lemma skip_header_returns (fuel : nat) (s s' : state) (n : Z) :
  http_req_skip_header fuel s = Ret (n, s') ->
  n = 1 /\ chunk_inv (req s').
Proof.
  revert s. induction fuel as [|fuel IH]; intros s; [discriminate|].
  cbn [http_req_skip_header]. intros H.
  apply bind_inv in H as ([v|] & s1 & Hit & H).
  - injection H as <- <-. exact (skip_header_iteration_returns _ _ _ Hit).
  - exact (IH _ H).
Qed.

(** While nothing arrives on an open socket, the loop goes on. *)
Lemma skip_header_idle (fuel : nat) (r : http_request) :
  socket r <> 0 -> chunk_len r <= 3 ->
  http_req_skip_header fuel (mk_state r []) = Spin.
Proof.
  intros Hs Hl. induction fuel as [|fuel IH]; [reflexivity|].
  cbn [http_req_skip_header].
  assert (E : skip_header_iteration (mk_state r [])
              = Ret (None, mk_state r [])).
  { unfold skip_header_iteration, bind, keep_tail, bind, get_req. cbn [req].
    destruct (chunk_len r >? 3) eqn:E; [lia|].
    unfold ret, http_req_read. cbn [req net].
    apply Z.eqb_neq in Hs. rewrite Hs. reflexivity. }
  unfold bind. rewrite E. exact IH.
Qed.

(** The example of the specification: the terminator is split after its
    third byte; the header is found and the buffer starts with BODY. *)
Lemma skip_header_spec_example :
  returned_with
    (http_req_skip_header 2
       (mk_state (fresh 3 false)
          [SelectReady (ReadBytes (cstr "HTTP/1.0 200 OK" ++ [CR; LF; CR]));
           SelectReady (ReadBytes (LF :: cstr "BODY"))]))
    1 (cstr "BODY").
Proof. vm_compute. repeat split. Qed.

Lemma stalls_after_spin (n : nat) (s : state) (fuel : nat) :
  stalls_after n s = true -> http_req_skip_header fuel s = Spin.
Proof.
  revert s fuel. induction n as [|n IH]; intros s fuel H.
  - destruct s as [r w]. cbn [stalls_after req net] in H.
    apply andb_true_iff in H as [H Hn]. apply andb_true_iff in H as [Hs Hl].
    destruct w; [|discriminate].
    apply skip_header_idle.
    + apply negb_true_iff, Z.eqb_neq in Hs. exact Hs.
    + lia.
  - destruct fuel as [|fuel]; [reflexivity|].
    cbn [http_req_skip_header stalls_after] in *. unfold bind at 1.
    destruct (skip_header_iteration s) as [[[v|] s1]| | |]; try discriminate.
    now apply IH.
Qed.

(** C1 at a failing input: the response arrives as "HTTP/1.0 200 OK",
    then \r\n, then \r\nBODY.  After the second read the buffer holds the
    five bytes " OK\r\n".  The memmove at the head of the next iteration
    copies chunk_len - 3 = 2 bytes instead of 3, so the bytes kept are
    K \r K and not K \r \n; when \r\nBODY arrives the buffer holds
    K \r K \r \n BODY, the terminator is not seen, and the loop goes on
    polling an idle socket. *)
Theorem skip_header_misses_split_terminator (fuel : nat) :
  http_req_skip_header fuel
    (mk_state (fresh 3 false)
       [SelectReady (ReadBytes (cstr "HTTP/1.0 200 OK"));
        SelectReady (ReadBytes [CR; LF]);
        SelectReady (ReadBytes ([CR; LF] ++ cstr "BODY"))])
  = Spin.
Proof. apply (stalls_after_spin 4). vm_compute. reflexivity. Qed.

(** C3 at a failing input: the first read on a fresh connection fails.
    [len] is a size_t, so the test [len < 0] does not hold for the -1 that
    http_req_read returned; chunk_len becomes -1, the scan compares [n]
    with it as an unsigned number and runs off the end of the buffer. *)
Theorem skip_header_read_failure_not_reported (fuel : nat) :
  http_req_skip_header (S fuel)
    (mk_state (fresh 3 false) [SelectReady ReadFail])
  = Undef.
Proof.
  cbn [http_req_skip_header]. unfold bind.
  replace (skip_header_iteration _) with (@Undef (option Z * state))
    by (vm_compute; reflexivity).
  reflexivity.
Qed.

(** ** The accessors *)

Lemma refill_spec (s s' : state) (ok : bool) :
  refill s = Ret (ok, s') ->
  if exhausted (req s) then
    if read_fails s
    then ok = false /\ chunk_len (req s') = -1 /\
         chunk_off (req s') = chunk_off (req s)
    else ok = true /\ chunk_off (req s') = 0 /\
         0 <= chunk_len (req s') <= CHUNK_SIZE
  else ok = true /\ s' = s.
Proof.
  unfold refill. intros H.
  apply bind_inv in H as (r & s1 & E & H).
  unfold get_req in E. injection E as <- <-.
  destruct (exhausted (req s)).
  - apply bind_inv in H as (got & s2 & Hread & H).
    apply http_req_read_spec in Hread as (Hl & Ho & Hread).
    apply bind_inv in H as ([] & s3 & E & H).
    unfold modify_req in E. injection E as <-.
    destruct (read_fails s).
    + destruct Hread as [-> _]. change (-1 <? 0) with true in H.
      injection H as <- <-. cbn. auto.
    + destruct Hread as (Hge & Hle & _).
      destruct (got <? 0) eqn:E; [lia|].
      apply bind_inv in H as ([] & s4 & E' & H).
      unfold modify_req in E'. injection E' as <-.
      injection H as <- <-. cbn. unfold CHUNK_SIZE in *. lia.
  - injection H as <- <-. auto.
Qed.

Lemma exhausted_false (r : http_request) :
  exhausted r = false -> chunk_len r <> 0 /\ chunk_off r + 1 <= chunk_len r.
Proof.
  unfold exhausted. intros H. apply orb_false_iff in H as [H1 H2]. lia.
Qed.

Lemma exhausted_read_fails_inv (s s' : state) :
  chunk_inv (req s) ->
  (if exhausted (req s) then
     if read_fails s
     then chunk_len (req s') = -1 /\ chunk_off (req s') = chunk_off (req s)
     else chunk_off (req s') = 0 /\ 0 <= chunk_len (req s') <= CHUNK_SIZE
   else s' = s) ->
  if exhausted (req s) && read_fails s
  then chunk_len (req s') = -1 /\ chunk_off (req s') = chunk_off (req s)
  else chunk_inv (req s').
Proof.
  intros I H. destruct (exhausted (req s)); cbn [andb].
  - destruct (read_fails s); [exact H|]. unfold chunk_inv. lia.
  - subst s'. exact I.
Qed.

Lemma chunk_peek_spec (s s' : state) (c : option Z) :
  http_req_chunk_peek s = Ret (c, s') ->
  (if exhausted (req s) then
     if read_fails s
     then chunk_len (req s') = -1 /\ chunk_off (req s') = chunk_off (req s)
     else chunk_off (req s') = 0 /\ 0 <= chunk_len (req s') <= CHUNK_SIZE
   else s' = s) /\
  match c with
  | Some off => off = chunk_off (req s') /\ exhausted (req s') = false
  | None => True
  end.
Proof.
  unfold http_req_chunk_peek. intros H.
  apply bind_inv in H as (ok & s1 & Hre & H).
  apply refill_spec in Hre.
  assert (G : if exhausted (req s) then
     if read_fails s
     then chunk_len (req s1) = -1 /\ chunk_off (req s1) = chunk_off (req s)
     else chunk_off (req s1) = 0 /\ 0 <= chunk_len (req s1) <= CHUNK_SIZE
   else s1 = s)
    by (destruct (exhausted (req s)); [destruct (read_fails s)|]; tauto).
  destruct ok.
  - apply bind_inv in H as (r & s2 & E & H).
    unfold get_req in E. injection E as <- <-.
    destruct (exhausted (req s1)) eqn:Ex; injection H as <- <-; auto.
  - injection H as <- <-. auto.
Qed.

Lemma byte_peek_spec (s s' : state) (c : byte) :
  http_req_byte_peek s = Ret (c, s') ->
  (if exhausted (req s) then
     if read_fails s
     then chunk_len (req s') = -1 /\ chunk_off (req s') = chunk_off (req s)
     else chunk_off (req s') = 0 /\ 0 <= chunk_len (req s') <= CHUNK_SIZE
   else s' = s) /\
  (c <> x00 ->
   exhausted (req s') = false /\ in_chunk (chunk_off (req s')) 1 = true /\
   c = byte_at (chunk (req s')) (chunk_off (req s'))).
Proof.
  unfold http_req_byte_peek. intros H.
  apply bind_inv in H as (ok & s1 & Hre & H).
  apply refill_spec in Hre.
  assert (G : if exhausted (req s) then
     if read_fails s
     then chunk_len (req s1) = -1 /\ chunk_off (req s1) = chunk_off (req s)
     else chunk_off (req s1) = 0 /\ 0 <= chunk_len (req s1) <= CHUNK_SIZE
   else s1 = s)
    by (destruct (exhausted (req s)); [destruct (read_fails s)|]; tauto).
  destruct ok.
  - apply bind_inv in H as (r & s2 & E & H).
    unfold get_req in E. injection E as <- <-.
    destruct (exhausted (req s1)) eqn:Ex.
    + injection H as <- <-. split; [exact G|]. congruence.
    + destruct (in_chunk (chunk_off (req s1)) 1) eqn:Ei; [|discriminate].
      injection H as <- <-. auto.
  - injection H as <- <-. split; [exact G|]. congruence.
Qed.

Lemma fresh_chunk_inv (fd : Z) (t : bool) : chunk_inv (fresh fd t).
Proof. unfold chunk_inv, fresh, CHUNK_SIZE. cbn. lia. Qed.

Lemma byte_peek_keeps_inv : keeps_chunk_inv http_req_byte_peek.
Proof.
  intros s c s' I H. apply byte_peek_spec in H as [H _].
  now apply exhausted_read_fails_inv.
Qed.

Lemma chunk_peek_keeps_inv : keeps_chunk_inv http_req_chunk_peek.
Proof.
  intros s c s' I H. apply chunk_peek_spec in H as [H _].
  now apply exhausted_read_fails_inv.
Qed.

Lemma byte_read_keeps_inv : keeps_chunk_inv http_req_byte_read.
Proof.
  intros s c s' I H. unfold http_req_byte_read in H.
  apply bind_inv in H as (c1 & s1 & Hp & H).
  apply byte_peek_spec in Hp as [Hp Hc].
  pose proof (exhausted_read_fails_inv s s1 I Hp) as G.
  destruct (Byte.eqb c1 x00) eqn:E.
  - injection H as <- <-. exact G.
  - apply byte_eqb_neq in E. destruct (Hc E) as (Hex & _ & _).
    apply exhausted_false in Hex.
    apply bind_inv in H as ([] & s2 & E' & H).
    unfold modify_req in E'. injection E' as <-.
    injection H as <- <-. cbn [req chunk_len chunk_off set_chunk_off].
    unfold chunk_inv in *.
    destruct (exhausted (req s) && read_fails s); cbn; lia.
Qed.

Lemma chunk_read_keeps_inv : keeps_chunk_inv http_req_chunk_read.
Proof.
  intros s c s' I H. unfold http_req_chunk_read in H.
  apply bind_inv in H as (c1 & s1 & Hp & H).
  apply chunk_peek_spec in Hp as [Hp Hc].
  pose proof (exhausted_read_fails_inv s s1 I Hp) as G.
  destruct c1 as [off|].
  - destruct Hc as [_ Hex]. apply exhausted_false in Hex.
    apply bind_inv in H as ([] & s2 & E' & H).
    unfold modify_req in E'. injection E' as <-.
    injection H as <- <-. cbn [req chunk_len chunk_off set_chunk_off].
    unfold chunk_inv in *.
    destruct (exhausted (req s) && read_fails s); cbn; lia.
  - injection H as <- <-. exact G.
Qed.

(** C7, as amended.  The invariant 0 <= chunk_off <= chunk_len <= 2048
    holds for a fresh connection; http_req_read keeps it in every case;
    it holds whenever http_req_skip_header returns; and each of the four
    accessors keeps it unless the call finds the buffer used up and its
    http_req_read returns -1, in which case chunk_len is left at -1 and
    chunk_off is not changed. *)
Theorem chunk_inv_preserved :
  (forall fd t, chunk_inv (fresh fd t)) /\
  (forall p data len s n s',
     chunk_inv (req s) -> http_req_read p data len s = Ret (n, s') ->
     chunk_inv (req s')) /\
  (forall fuel s n s',
     chunk_inv (req s) -> http_req_skip_header fuel s = Ret (n, s') ->
     chunk_inv (req s')) /\
  keeps_chunk_inv http_req_byte_peek /\
  keeps_chunk_inv http_req_byte_read /\
  keeps_chunk_inv http_req_chunk_peek /\
  keeps_chunk_inv http_req_chunk_read.
Proof.
  split; [exact fresh_chunk_inv|].
  split.
  { intros [|] data len s n s' I H.
    - injection H as <- <-. exact I.
    - apply http_req_read_spec in H as (Hl & Ho & _).
      unfold chunk_inv in *. rewrite Hl, Ho. exact I. }
  split.
  { intros fuel s n s' _ H. exact (proj2 (skip_header_returns _ _ _ _ H)). }
  split; [exact byte_peek_keeps_inv|].
  split; [exact byte_read_keeps_inv|].
  split; [exact chunk_peek_keeps_inv | exact chunk_read_keeps_inv].
Qed.

Lemma chunk_inv_preserved_witness :
  chunk_inv
    (mk_req 3 false false
       (write_at 0 (cstr "{") (repeat x00 (Z.to_nat CHUNK_SIZE))) 1 1).
Proof.
  exact (proj1 (proj2 (proj2 (proj2 (proj2 chunk_inv_preserved))))
           (mk_state (fresh 3 false) [SelectReady (ReadBytes (cstr "{"))])
           "{"%byte
           (mk_state
              (mk_req 3 false false
                 (write_at 0 (cstr "{") (repeat x00 (Z.to_nat CHUNK_SIZE)))
                 1 1) [])
           (fresh_chunk_inv 3 false) eq_refl).
Defined.

(** C7 as stated fails: when the read of a refill fails, the accessor
    stores the -1 in chunk_len. *)
Lemma chunk_inv_preserved_counterexample :
  chunk_inv (fresh 3 false) /\
  http_req_byte_peek (mk_state (fresh 3 false) [SelectReady ReadFail])
  = Ret (x00, mk_state (set_chunk_len (hang_up (fresh 3 false)) (-1)) []) /\
  ~ chunk_inv (set_chunk_len (hang_up (fresh 3 false)) (-1)).
Proof.
  split; [apply fresh_chunk_inv|]. split; [reflexivity|].
  unfold chunk_inv. cbn. lia.
Qed.

Lemma byte_peek_again (s s' : state) (c : byte) :
  http_req_byte_peek s = Ret (c, s') -> c <> x00 ->
  http_req_byte_peek s' = Ret (c, s').
Proof.
  intros H Hc. apply byte_peek_spec in H as [_ H].
  destruct (H Hc) as (Hex & Hin & ->).
  unfold http_req_byte_peek, refill, bind, get_req, ret.
  rewrite Hex. cbn. rewrite Hex, Hin. reflexivity.
Qed.

Lemma byte_peek_cursor (s s' : state) (c : byte) :
  http_req_byte_peek s = Ret (c, s') ->
  chunk_off (req s') = chunk_off (req s) \/ chunk_off (req s') = 0.
Proof.
  intros H. apply byte_peek_spec in H as [H _].
  destruct (exhausted (req s)); [destruct (read_fails s)|]; try tauto.
  subst s'. auto.
Qed.

Lemma byte_peek_buffered (s : state) :
  exhausted (req s) = false -> in_chunk (chunk_off (req s)) 1 = true ->
  http_req_byte_peek s
  = Ret (byte_at (chunk (req s)) (chunk_off (req s)), s).
Proof.
  intros Hex Hin.
  unfold http_req_byte_peek, refill, bind, get_req, ret.
  rewrite Hex. cbn. rewrite Hex, Hin. reflexivity.
Qed.

(** C10, as amended.  http_req_byte_peek leaves the cursor where it was
    or, on a refill, puts it back to 0; a peek that returned a byte other
    than 0 is repeated by the next peek, with no change of state;
    http_req_byte_read returns what http_req_byte_peek returns and moves
    the cursor by one exactly when that value is not 0.  A buffered byte
    0x00 is therefore returned as 0 and not consumed, the same value a
    read returns when the buffer is used up and the socket is idle. *)
Theorem byte_peek_read_relation :
  (forall s c s',
     http_req_byte_peek s = Ret (c, s') ->
     chunk_off (req s') = chunk_off (req s) \/ chunk_off (req s') = 0) /\
  (forall s c s',
     http_req_byte_peek s = Ret (c, s') -> c <> x00 ->
     http_req_byte_peek s' = Ret (c, s')) /\
  (forall s,
     http_req_byte_read s
     = match http_req_byte_peek s with
       | Ret (c, s') =>
           if Byte.eqb c x00 then Ret (x00, s')
           else Ret (c, mk_state
                          (set_chunk_off (req s') (chunk_off (req s') + 1))
                          (net s'))
       | Exit => Exit
       | Undef => Undef
       | Spin => Spin
       end) /\
  (forall s,
     exhausted (req s) = false -> in_chunk (chunk_off (req s)) 1 = true ->
     byte_at (chunk (req s)) (chunk_off (req s)) = x00 ->
     http_req_byte_peek s = Ret (x00, s) /\
     http_req_byte_read s = Ret (x00, s)) /\
  (forall r w,
     socket r <> 0 -> exhausted r = true ->
     http_req_byte_read (mk_state r (SelectIdle :: w))
     = Ret (x00, mk_state (set_chunk_off (set_chunk_len r 0) 0) w)).
Proof.
  split; [intros s c s'; apply byte_peek_cursor|].
  split; [intros s c s'; apply byte_peek_again|].
  split.
  { intros s. unfold http_req_byte_read, bind at 1.
    destruct (http_req_byte_peek s) as [[c s']| | |]; try reflexivity.
    destruct (Byte.eqb c x00); reflexivity. }
  split.
  { intros s Hex Hin Hz.
    pose proof (byte_peek_buffered s Hex Hin) as E. rewrite Hz in E.
    split; [exact E|]. unfold http_req_byte_read, bind. rewrite E.
    reflexivity. }
  intros r w Hs Hex. apply Z.eqb_neq in Hs.
  assert (E : refill (mk_state r (SelectIdle :: w))
              = Ret (true, mk_state (set_chunk_off (set_chunk_len r 0) 0) w)).
  { unfold refill, bind, get_req. cbn [req]. rewrite Hex.
    unfold http_req_read. cbn [req net]. rewrite Hs. reflexivity. }
  unfold http_req_byte_read, http_req_byte_peek, bind. rewrite E.
  reflexivity.
Qed.

Lemma byte_peek_read_relation_witness :
  http_req_byte_peek
    (mk_state (mk_req 3 false false (cstr "{}") 2 0) [])
  = Ret ("{"%byte, mk_state (mk_req 3 false false (cstr "{}") 2 0) []).
Proof.
  apply (proj1 (proj2 byte_peek_read_relation)
           (mk_state (mk_req 3 false false (cstr "{}") 2 0) [])).
  - reflexivity.
  - discriminate.
Defined.

(** C10 as stated fails: a peek that finds nothing to read returns 0, and
    the next peek polls the socket again and returns the byte that has
    arrived in between. *)
Lemma byte_peek_read_relation_counterexample :
  http_req_byte_peek
    (mk_state (fresh 3 false) [SelectIdle; SelectReady (ReadBytes (cstr "{"))])
  = Ret (x00, mk_state (fresh 3 false) [SelectReady (ReadBytes (cstr "{"))]) /\
  http_req_byte_peek
    (mk_state (fresh 3 false) [SelectReady (ReadBytes (cstr "{"))])
  = Ret ("{"%byte,
         mk_state (mk_req 3 false false
                     (write_at 0 (cstr "{") (repeat x00 (Z.to_nat CHUNK_SIZE)))
                     1 0) []).
Proof. split; reflexivity. Qed.

(** ** The weather pass *)

Import Weather.

(** C8.  The icon is a function of the weather code and the night flag
    alone: rain for 200..399 and 500..599, snow for 600..699, clouds for
    801..804, and otherwise moon at night and sun by day; the boundary
    values fall as the specification lists them, and this is the icon
    fetch_weather stores after the pass. *)
Theorem condition_icon_mapping :
  (forall weather_id night,
     (200 <= weather_id <= 399 \/ 500 <= weather_id <= 599 ->
      condition_icon weather_id night = ICON_RAIN) /\
     (600 <= weather_id <= 699 ->
      condition_icon weather_id night = ICON_SNOW) /\
     (801 <= weather_id <= 804 ->
      condition_icon weather_id night = ICON_CLOUDS) /\
     (weather_id < 200 \/ 400 <= weather_id < 500 \/
      700 <= weather_id <= 800 \/ 805 <= weather_id ->
      condition_icon weather_id night
      = if night =? 0 then ICON_SUN else ICON_MOON)) /\
  (forall night,
     let default := if night =? 0 then ICON_SUN else ICON_MOON in
     condition_icon 199 night = default /\
     condition_icon 200 night = ICON_RAIN /\
     condition_icon 399 night = ICON_RAIN /\
     condition_icon 400 night = default /\
     condition_icon 500 night = ICON_RAIN /\
     condition_icon 599 night = ICON_RAIN /\
     condition_icon 600 night = ICON_SNOW /\
     condition_icon 699 night = ICON_SNOW /\
     condition_icon 700 night = default /\
     condition_icon 801 night = ICON_CLOUDS /\
     condition_icon 804 night = ICON_CLOUDS /\
     condition_icon 805 night = default) /\
  (forall (double : Type) (zero : double) (to_int : double -> Z)
          fahrenheit toks,
     let p := snd (run_pass to_int toks (initial_pass zero)) in
     current_condition_icon (read_body zero to_int fahrenheit toks)
     = condition_icon (weather_id p) (night p)).
Proof.
  split; [|split].
  - intros id night. unfold condition_icon.
    repeat split; intros H;
      repeat match goal with
             | |- context [?a >=? ?b] => destruct (Z.geb_spec a b); try lia
             | |- context [?a <=? ?b] => destruct (Z.leb_spec a b); try lia
             end; reflexivity.
  - intros night default. unfold condition_icon. cbn.
    repeat split; reflexivity.
  - reflexivity.
Qed.

Lemma condition_icon_mapping_witness :
  condition_icon 804 0 = ICON_CLOUDS /\ condition_icon 650 1 = ICON_SNOW.
Proof.
  split.
  - apply (proj1 condition_icon_mapping 804 0). lia.
  - apply (proj1 condition_icon_mapping 650 1). lia.
Defined.

Lemma json_type_eqb_eq (a b : json_type) : json_type_eqb a b = true <-> a = b.
Proof.
  destruct a, b; simpl; split; intros H; try discriminate; reflexivity.
Qed.

Lemma json_type_eqb_neq (a b : json_type) :
  json_type_eqb a b = false <-> a <> b.
Proof.
  destruct (json_type_eqb a b) eqn:E.
  - apply json_type_eqb_eq in E. split; [discriminate | contradiction].
  - split; [|reflexivity]. intros _ Hab.
    apply json_type_eqb_eq in Hab. congruence.
Qed.

Lemma toupper_spec (b : byte) :
  byte_val (toupper b)
  = if (97 <=? byte_val b) && (byte_val b <=? 122)
    then byte_val b - 32 else byte_val b.
Proof. destruct b; reflexivity. Qed.

Lemma is_key_holds {double : Type} (t : token double) (p : pass double)
    (key : string) :
  is_key t (load_str t p) key = true <-> holds_key t key.
Proof.
  unfold is_key, load_str, holds_key.
  destruct (json_type_eqb (tok_type t) JSON_STRING) eqn:E.
  - apply json_type_eqb_eq in E. cbn. rewrite streq_eq. tauto.
  - apply json_type_eqb_neq in E. cbn. split; [discriminate | tauto].
Qed.

Lemma is_key_not {double : Type} (t : token double) (p : pass double)
    (key : string) :
  is_key t (load_str t p) key = false <-> ~ holds_key t key.
Proof.
  rewrite <- is_key_holds with (p := p).
  destruct (is_key t (load_str t p) key); split; congruence.
Qed.

Lemma load_str_state {double : Type} (t : token double) (p : pass double) :
  state (load_str t p) = state p.
Proof. unfold load_str. now destruct (json_type_eqb _ _). Qed.

Lemma load_str_string {double : Type} (t : token double) (p : pass double) :
  tok_type t = JSON_STRING -> str (load_str t p) = tok_string t.
Proof. unfold load_str. now intros ->. Qed.

(** Whatever the token is, reading through [str] after it gives the text
    that belongs to it. *)
Lemma read_str_load {double : Type} (t : token double) (p : pass double) :
  read_str t (load_str t p) = tok_string t.
Proof.
  unfold read_str, load_str.
  destruct (json_type_eqb (tok_type t) JSON_STRING); reflexivity.
Qed.

Lemma load_str_values {double : Type} (t : token double) (p : pass double) :
  conditions (load_str t p) = conditions p /\
  temp (load_str t p) = temp p /\
  weather_id (load_str t p) = weather_id p /\
  night (load_str t p) = night p.
Proof. unfold load_str. destruct (json_type_eqb _ _); cbn; auto. Qed.

(** The text strlcpy and toupper leave in current_conditions. *)
Lemma capitalize_strlcpy (s : list byte) :
  match firstn 99 s with
  | [] => capitalize (strlcpy_conditions s) = []
  | c :: rest =>
      exists c',
        capitalize (strlcpy_conditions s) = c' :: rest /\
        byte_val c'
        = if (97 <=? byte_val c) && (byte_val c <=? 122)
          then byte_val c - 32 else byte_val c
  end.
Proof.
  unfold strlcpy_conditions, CONDITIONS_SIZE.
  change (100 - 1)%nat with 99%nat.
  destruct (firstn 99 s) as [|c rest]; [reflexivity|].
  exists (toupper c). split; [reflexivity | apply toupper_spec].
Qed.

Ltac key_cases t p :=
  repeat match goal with
         | |- context [is_key t (load_str t p) ?k] =>
             let E := fresh "E" in
             destruct (is_key t (load_str t p) k) eqn:E;
             [apply is_key_holds in E | apply is_key_not in E]
         end.

Ltac clash :=
  repeat match goal with
         | H : holds_key _ _, H' : holds_key _ _ |- _ =>
             destruct H as [_ H], H' as [_ H']; rewrite H in H';
             discriminate H'
         | H : holds_key _ _, H' : tok_type _ = JSON_OBJECT_END |- _ =>
             destruct H as [H _]; rewrite H in H'; discriminate H'
         end.

Lemma step_begin {double : Type} (double_to_int : double -> Z)
    (t : token double) (p : pass double) :
  state p = STATE_BEGIN ->
  (holds_key t "weather" ->
   state (step double_to_int t p) = STATE_IN_WEATHER) /\
  (holds_key t "main" -> state (step double_to_int t p) = STATE_IN_MAIN) /\
  (~ holds_key t "weather" -> ~ holds_key t "main" ->
   state (step double_to_int t p) = STATE_BEGIN).
Proof.
  intros Hst. unfold step, dispatch. rewrite load_str_state, Hst.
  repeat split; intros; key_cases t p; cbn;
    try reflexivity; try contradiction; try clash.
  rewrite load_str_state. exact Hst.
Qed.

Lemma step_in_weather {double : Type} (double_to_int : double -> Z)
    (t : token double) (p : pass double) :
  state p = STATE_IN_WEATHER ->
  (holds_key t "id" -> state (step double_to_int t p) = STATE_IN_WEATHER_ID) /\
  (holds_key t "description" ->
   state (step double_to_int t p) = STATE_IN_WEATHER_DESC) /\
  (holds_key t "icon" ->
   state (step double_to_int t p) = STATE_IN_WEATHER_ICON) /\
  (tok_type t = JSON_OBJECT_END ->
   state (step double_to_int t p) = STATE_BEGIN) /\
  (~ holds_key t "id" -> ~ holds_key t "description" ->
   ~ holds_key t "icon" -> tok_type t <> JSON_OBJECT_END ->
   state (step double_to_int t p) = STATE_IN_WEATHER).
Proof.
  intros Hst. unfold step, dispatch. rewrite load_str_state, Hst.
  repeat split; intros; key_cases t p; cbn;
    try reflexivity; try contradiction; try clash.
  - match goal with H : tok_type t = _ |- _ => rewrite H end. reflexivity.
  - match goal with
    | H : tok_type t <> _ |- _ => apply json_type_eqb_neq in H; rewrite H
    end.
    rewrite load_str_state. exact Hst.
Qed.

Lemma step_in_main {double : Type} (double_to_int : double -> Z)
    (t : token double) (p : pass double) :
  state p = STATE_IN_MAIN ->
  (holds_key t "temp" -> state (step double_to_int t p) = STATE_IN_MAIN_TEMP) /\
  (~ holds_key t "temp" -> state (step double_to_int t p) = STATE_IN_MAIN).
Proof.
  intros Hst. unfold step, dispatch. rewrite load_str_state, Hst.
  split; intros; key_cases t p; cbn; try reflexivity; try contradiction.
  rewrite load_str_state. exact Hst.
Qed.

Lemma step_waiting {double : Type} (double_to_int : double -> Z)
    (t : token double) (p : pass double) :
  state p = STATE_BEGIN \/ state p = STATE_IN_WEATHER \/
  state p = STATE_IN_MAIN ->
  conditions (step double_to_int t p) = conditions p /\
  temp (step double_to_int t p) = temp p /\
  weather_id (step double_to_int t p) = weather_id p /\
  night (step double_to_int t p) = night p.
Proof.
  assert (L : conditions (load_str t p) = conditions p /\
              temp (load_str t p) = temp p /\
              weather_id (load_str t p) = weather_id p /\
              night (load_str t p) = night p)
    by (unfold load_str; destruct (json_type_eqb _ _); cbn; auto).
  intros Hst. unfold step, dispatch. rewrite load_str_state.
  destruct Hst as [Hst|[Hst|Hst]]; rewrite Hst; key_cases t p; cbn;
    try exact L.
  destruct (json_type_eqb (tok_type t) JSON_OBJECT_END); cbn; exact L.
Qed.

Lemma step_in_weather_id {double : Type} (double_to_int : double -> Z)
    (t : token double) (p : pass double) :
  state p = STATE_IN_WEATHER_ID ->
  state (step double_to_int t p) = STATE_IN_WEATHER /\
  (tok_type t = JSON_NUMBER ->
   weather_id (step double_to_int t p) = double_to_int (tok_number t)) /\
  (tok_type t <> JSON_NUMBER ->
   weather_id (step double_to_int t p) = weather_id p) /\
  conditions (step double_to_int t p) = conditions p /\
  temp (step double_to_int t p) = temp p /\
  night (step double_to_int t p) = night p.
Proof.
  intros Hst. destruct (load_str_values t p) as (Lc & Lt & Lw & Ln).
  unfold step, dispatch. rewrite load_str_state, Hst. cbn.
  repeat split; auto.
  - intros E. rewrite E. reflexivity.
  - intros E. apply json_type_eqb_neq in E. rewrite E. exact Lw.
Qed.

Lemma step_in_weather_desc {double : Type} (double_to_int : double -> Z)
    (t : token double) (p : pass double) :
  state p = STATE_IN_WEATHER_DESC ->
  state (step double_to_int t p) = STATE_IN_WEATHER /\
  match firstn 99 (tok_string t) with
  | [] => conditions (step double_to_int t p) = []
  | c :: rest =>
      exists c',
        conditions (step double_to_int t p) = c' :: rest /\
        byte_val c'
        = if (97 <=? byte_val c) && (byte_val c <=? 122)
          then byte_val c - 32 else byte_val c
  end /\
  temp (step double_to_int t p) = temp p /\
  weather_id (step double_to_int t p) = weather_id p /\
  night (step double_to_int t p) = night p.
Proof.
  intros Hst. destruct (load_str_values t p) as (Lc & Lt & Lw & Ln).
  unfold step, dispatch. rewrite load_str_state, Hst. cbn.
  rewrite read_str_load.
  repeat split; auto. apply capitalize_strlcpy.
Qed.

Lemma step_in_weather_icon {double : Type} (double_to_int : double -> Z)
    (t : token double) (p : pass double) :
  state p = STATE_IN_WEATHER_ICON ->
  state (step double_to_int t p) = STATE_IN_WEATHER /\
  (tok_type t = JSON_STRING -> (2 <= length (tok_string t))%nat ->
   (nth 2 (tok_string t) x00 = "n"%byte ->
    night (step double_to_int t p) = 1) /\
   (nth 2 (tok_string t) x00 <> "n"%byte ->
    night (step double_to_int t p) = 0)) /\
  (tok_type t <> JSON_STRING ->
   night (step double_to_int t p) = night p) /\
  conditions (step double_to_int t p) = conditions p /\
  temp (step double_to_int t p) = temp p /\
  weather_id (step double_to_int t p) = weather_id p.
Proof.
  intros Hst. destruct (load_str_values t p) as (Lc & Lt & Lw & Ln).
  unfold step, dispatch. rewrite load_str_state, Hst. cbn.
  split; [reflexivity|]. split; [|split; [|auto]].
  - intros E _. rewrite (load_str_string t p E). rewrite E. cbn.
    split; intros H.
    + rewrite H. reflexivity.
    + apply byte_eqb_neq in H. rewrite H. reflexivity.
  - intros E. apply json_type_eqb_neq in E. rewrite E. exact Ln.
Qed.

Lemma step_in_main_temp {double : Type} (double_to_int : double -> Z)
    (t : token double) (p : pass double) :
  state p = STATE_IN_MAIN_TEMP ->
  state (step double_to_int t p) = STATE_IN_MAIN /\
  (tok_type t = JSON_NUMBER -> temp (step double_to_int t p) = tok_number t)
  /\
  (tok_type t <> JSON_NUMBER -> temp (step double_to_int t p) = temp p) /\
  conditions (step double_to_int t p) = conditions p /\
  weather_id (step double_to_int t p) = weather_id p /\
  night (step double_to_int t p) = night p.
Proof.
  intros Hst. destruct (load_str_values t p) as (Lc & Lt & Lw & Ln).
  unfold step, dispatch. rewrite load_str_state, Hst. cbn.
  repeat split; auto.
  - intros E. rewrite E. reflexivity.
  - intros E. apply json_type_eqb_neq in E. rewrite E. exact Lt.
Qed.

(** C9, as amended.  One token takes the extraction from state to state
    as follows, for every token and every state the pass can be in.  The
    keys weather and main leave BEGIN; the keys id, description and icon
    leave IN_WEATHER for their sub-state and ObjectEnd leaves it for
    BEGIN; the key temp leaves IN_MAIN; any other token leaves these three
    states, and the values gathered so far, as they are.  A sub-state
    lasts for one token, whatever that token is, and then goes back to the
    state it came from, leaving the values of the other sub-states as they
    are.  IN_WEATHER_ID stores the number of a Number token and stores
    nothing for a token of another kind, and so does IN_MAIN_TEMP.
    IN_WEATHER_ICON sets the night flag for a String token of at least
    two bytes, to 1 when its third byte is n and to 0 otherwise, and
    leaves the flag for a token of another kind.  IN_WEATHER_DESC does
    not look at the kind of the token: it always overwrites the
    description, with the first 99 bytes of the text read through str
    (the text of the token when it is a String), the first of them turned
    into upper case when it is one of the letters a to z.  The traversal
    applies this step to the tokens in order until the parser answers
    Done or reports an error. *)
Theorem extraction_transitions {double : Type} (double_to_int : double -> Z)
    (t : token double) (p : pass double) :
  let q := step double_to_int t p in
  (state p = STATE_BEGIN ->
     (holds_key t "weather" -> state q = STATE_IN_WEATHER) /\
     (holds_key t "main" -> state q = STATE_IN_MAIN) /\
     (~ holds_key t "weather" -> ~ holds_key t "main" ->
      state q = STATE_BEGIN)) /\
  (state p = STATE_IN_WEATHER ->
     (holds_key t "id" -> state q = STATE_IN_WEATHER_ID) /\
     (holds_key t "description" -> state q = STATE_IN_WEATHER_DESC) /\
     (holds_key t "icon" -> state q = STATE_IN_WEATHER_ICON) /\
     (tok_type t = JSON_OBJECT_END -> state q = STATE_BEGIN) /\
     (~ holds_key t "id" -> ~ holds_key t "description" ->
      ~ holds_key t "icon" -> tok_type t <> JSON_OBJECT_END ->
      state q = STATE_IN_WEATHER)) /\
  (state p = STATE_IN_WEATHER_ID ->
     state q = STATE_IN_WEATHER /\
     (tok_type t = JSON_NUMBER ->
      weather_id q = double_to_int (tok_number t)) /\
     (tok_type t <> JSON_NUMBER -> weather_id q = weather_id p) /\
     conditions q = conditions p /\ temp q = temp p /\
     night q = night p) /\
  (state p = STATE_IN_WEATHER_DESC ->
     state q = STATE_IN_WEATHER /\
     match firstn 99 (tok_string t) with
     | [] => conditions q = []
     | c :: rest =>
         exists c',
           conditions q = c' :: rest /\
           byte_val c'
           = if (97 <=? byte_val c) && (byte_val c <=? 122)
             then byte_val c - 32 else byte_val c
     end /\
     temp q = temp p /\ weather_id q = weather_id p /\
     night q = night p) /\
  (state p = STATE_IN_WEATHER_ICON ->
     state q = STATE_IN_WEATHER /\
     (tok_type t = JSON_STRING -> (2 <= length (tok_string t))%nat ->
      (nth 2 (tok_string t) x00 = "n"%byte -> night q = 1) /\
      (nth 2 (tok_string t) x00 <> "n"%byte -> night q = 0)) /\
     (tok_type t <> JSON_STRING -> night q = night p) /\
     conditions q = conditions p /\ temp q = temp p /\
     weather_id q = weather_id p) /\
  (state p = STATE_IN_MAIN ->
     (holds_key t "temp" -> state q = STATE_IN_MAIN_TEMP) /\
     (~ holds_key t "temp" -> state q = STATE_IN_MAIN)) /\
  (state p = STATE_IN_MAIN_TEMP ->
     state q = STATE_IN_MAIN /\
     (tok_type t = JSON_NUMBER -> temp q = tok_number t) /\
     (tok_type t <> JSON_NUMBER -> temp q = temp p) /\
     conditions q = conditions p /\ weather_id q = weather_id p /\
     night q = night p) /\
  (state p = STATE_BEGIN \/ state p = STATE_IN_WEATHER \/
   state p = STATE_IN_MAIN ->
   conditions q = conditions p /\ temp q = temp p /\
   weather_id q = weather_id p /\ night q = night p) /\
  (forall toks,
     run_pass double_to_int (t :: toks) p
     = if json_type_eqb (tok_type t) JSON_DONE then (Done, p)
       else if tok_error t then (Error, p)
       else run_pass double_to_int toks q).
Proof.
  intros q. subst q.
  split; [apply step_begin|].
  split; [apply step_in_weather|].
  split; [apply step_in_weather_id|].
  split; [apply step_in_weather_desc|].
  split; [apply step_in_weather_icon|].
  split; [apply step_in_main|].
  split; [apply step_in_main_temp|].
  split; [apply step_waiting|].
  reflexivity.
Qed.

Lemma step_without_description {double : Type} (double_to_int : double -> Z)
    (t : token double) (p : pass double) :
  state p <> STATE_IN_WEATHER_DESC -> ~ holds_key t "description" ->
  state (step double_to_int t p) <> STATE_IN_WEATHER_DESC /\
  conditions (step double_to_int t p) = conditions p.
Proof.
  intros Hst Hk.
  assert (L : conditions (load_str t p) = conditions p)
    by (unfold load_str; destruct (json_type_eqb _ _); reflexivity).
  unfold step, dispatch. rewrite load_str_state.
  destruct (state p) eqn:E; try contradiction; key_cases t p; cbn;
    try (split; [discriminate | exact L]); try contradiction;
    try (rewrite load_str_state, E; split; [discriminate | exact L]).
  destruct (json_type_eqb (tok_type t) JSON_OBJECT_END); cbn;
    [split; [discriminate | exact L]|].
  rewrite load_str_state, E. split; [discriminate | exact L].
Qed.

Lemma run_pass_without_description {double : Type} (double_to_int : double -> Z)
    (toks : list (token double))
    (p : pass double) :
  state p <> STATE_IN_WEATHER_DESC ->
  Forall (fun t => ~ holds_key t "description") toks ->
  conditions (snd (run_pass double_to_int toks p)) = conditions p.
Proof.
  intros Hst Hk. revert p Hst.
  induction Hk as [|t toks Ht _ IH]; intros p Hst; [reflexivity|].
  cbn [run_pass].
  destruct (json_type_eqb (tok_type t) JSON_DONE); [reflexivity|].
  destruct (tok_error t); [reflexivity|].
  destruct (step_without_description double_to_int t p Hst Ht) as [Hst' Hc].
  rewrite (IH _ Hst'). exact Hc.
Qed.

(** C4, as amended.  When the traversal ends because the parser reports
    an error, fetch_weather goes on as it does after Done and returns 0;
    the value 1 is returned only when http_get gave NULL (or the header
    skip did not return 1), and then the globals are not touched.  After
    the error current_conditions holds the text the pass left, followed
    by the temperature suffix and cut to 99 bytes; that text is the
    sentinel "(Failed to parse API response)" when no String token with
    the text description came in the stream. *)
Theorem parse_error_outcome {double : Type} (double_to_int : double -> Z)
    (double_zero : double) (fahrenheit : bool) (s s' : Http.state)
    (fuel : nat) (toks : list (token double)) (g : globals double) :
  Http.http_req_skip_header fuel s = Ret (1, s') ->
  fst (run_pass double_to_int toks (initial_pass double_zero)) = Error ->
  let p := snd (run_pass double_to_int toks (initial_pass double_zero)) in
  let g' := read_body double_zero double_to_int fahrenheit toks in
  fetch_weather double_zero double_to_int fahrenheit (Some s) fuel toks g
  = Ret (0, g') /\
  current_conditions g'
  = append_conditions (conditions p)
      (temperature_suffix double_to_int fahrenheit (temp p)) /\
  (Forall (fun t => ~ holds_key t "description") toks ->
   current_conditions g'
   = append_conditions failed_to_parse
       (temperature_suffix double_to_int fahrenheit (temp p))) /\
  fetch_weather double_zero double_to_int fahrenheit None fuel toks g
  = Ret (1, g).
Proof.
  intros Hskip Herr p g'.
  split; [|split; [|split]].
  - unfold fetch_weather. rewrite Hskip. reflexivity.
  - reflexivity.
  - intros Hk. subst g' p. unfold read_body. cbn [current_conditions].
    rewrite run_pass_without_description by (auto; discriminate).
    reflexivity.
  - reflexivity.
Qed.


Lemma extraction_transitions_witness :
  state (step (fun z => z) (tok JSON_STRING "weather" 0) (initial_pass 0))
  = STATE_IN_WEATHER.
Proof.
  apply (proj1 (extraction_transitions (fun z => z)
                  (tok JSON_STRING "weather" 0) (initial_pass 0))).
  - reflexivity.
  - split; reflexivity.
Defined.

(** C9 as stated fails.  In the malformed document of the specification
    the token after the key id is a String: the sub-state is left and no
    value has been captured.  After the key temp a null ends the wait, and
    the Number that comes next is not captured.  Of a description of 120
    bytes only the first 99 are kept. *)
Lemma extraction_transitions_counterexample :
  (let p := snd (run_pass (fun z => z) malformed (initial_pass 0)) in
   state p = STATE_IN_WEATHER /\ weather_id p = 0) /\
  (let p := snd (run_pass (fun z => z) temp_null (initial_pass 0)) in
   state p = STATE_IN_MAIN /\ temp p = 0) /\
  (let p := step (fun z => z) long_description awaiting_description in
   state p = STATE_IN_WEATHER /\
   conditions p = "A"%byte :: repeat "a"%byte 98 /\
   conditions p <> capitalize (tok_string long_description)).
Proof.
  split; [split; reflexivity|].
  split; [split; reflexivity|].
  split; [reflexivity|]. split; [reflexivity|].
  vm_compute. discriminate.
Qed.

Lemma parse_error_outcome_witness :
  fetch_weather 0 (fun z => z) true (Some answered) 1 malformed untouched
  = Ret (0, read_body 0 (fun z => z) true malformed).
Proof.
  refine (proj1 (parse_error_outcome (fun z => z) 0 true answered
                   (mk_state (set_chunk (fresh 3 false) _) [])
                   1 malformed untouched _ _)).
  - vm_compute. reflexivity.
  - reflexivity.
Defined.

(** C4 as stated fails: the traversal of the malformed document ends in
    the Error state, and fetch_weather returns 0, not the 1 it returns for
    a transport failure; current_conditions is not the sentinel but the
    sentinel followed by the temperature, and a transport failure leaves
    current_conditions as it was. *)
Lemma parse_error_outcome_counterexample :
  fst (run_pass (fun z => z) malformed (initial_pass 0)) = Error /\
  fetch_weather 0 (fun z => z) true (Some answered) 1 malformed untouched
  = Ret (0, mk_globals Z
              (cstr "(Failed to parse API response), 0" ++ [xb0; "F"%byte])
              0 ICON_SUN) /\
  fetch_weather 0 (fun z => z) true None 1 malformed untouched
  = Ret (1, untouched).
Proof. repeat split; vm_compute; reflexivity. Qed.

(** ** url_encode *)

Lemma encode_loop_count (str : list byte) (len : Z) :
  Encode.encode_loop None str len
  = Ret (None, len + Z.of_nat (length (Encode.encoded str))).
Proof.
  revert len. induction str as [|c str IH]; intros len;
    cbn [Encode.encode_loop].
  - cbn. f_equal. f_equal. lia.
  - unfold Encode.encoded in *. cbn [flat_map]. rewrite length_app.
    unfold Encode.encoded_byte at 1.
    destruct (Encode.unreserved c); rewrite IH;
      cbn [length Encode.percent_code];
      f_equal; f_equal; lia.
Qed.

Lemma firstn_prefix {A} (a t : list A) : firstn (length a) (a ++ t) = a.
Proof. induction a as [|x a IH]; cbn; [now destruct t | now rewrite IH]. Qed.

Lemma skipn_prefix {A} (a t : list A) : skipn (length a) (a ++ t) = t.
Proof. induction a as [|x a IH]; cbn; [reflexivity | exact IH]. Qed.

Lemma poke_next (out : list byte) (cell : option byte) (tail : Encode.buffer)
    (b : byte) :
  Encode.poke (map Some out ++ cell :: tail) (Z.of_nat (length out)) b
  = Some (map Some (out ++ [b]) ++ tail).
Proof.
  unfold Encode.poke. rewrite length_app, length_map. cbn [length].
  assert (E : (0 <=? Z.of_nat (length out))
              && (Z.of_nat (length out)
                  <? Z.of_nat (length out + S (length tail)))
              = true).
  { apply andb_true_iff. split; [apply Z.leb_le | apply Z.ltb_lt]; lia. }
  rewrite E, Nat2Z.id. f_equal.
  rewrite <- (length_map Some out) at 1 2.
  rewrite firstn_prefix.
  change (S (length (map Some out))) with (1 + length (map Some out))%nat.
  rewrite <- skipn_skipn, skipn_prefix. cbn [skipn].
  rewrite map_app, <- app_assoc. reflexivity.
Qed.

Lemma poke_all_next (bs out : list byte) (tail : Encode.buffer) :
  (length bs <= length tail)%nat ->
  exists tail',
    Encode.poke_all (map Some out ++ tail) (Z.of_nat (length out)) bs
    = Some (map Some (out ++ bs) ++ tail')
    /\ (length tail' + length bs = length tail)%nat.
Proof.
  revert out tail. induction bs as [|b bs IH]; intros out tail Hlen.
  - exists tail. rewrite app_nil_r. cbn. auto.
  - destruct tail as [|cell tail]; [cbn in Hlen; lia|].
    cbn [Encode.poke_all]. rewrite poke_next.
    destruct (IH (out ++ [b]) tail) as (tail' & E & L);
      [cbn in Hlen; lia|].
    exists tail'. rewrite length_app in E. cbn [length] in E.
    replace (Z.of_nat (length out + 1)) with (Z.of_nat (length out) + 1)
      in E by lia.
    unfold Encode.buffer in *.
    rewrite E, <- app_assoc. cbn [app length]. split; [reflexivity|lia].
Qed.

Lemma encode_loop_fill (str out : list byte) (tail : Encode.buffer) :
  (length (Encode.encoded str) + 1 <= length tail)%nat ->
  exists tail',
    Encode.encode_loop (Some (map Some out ++ tail)) str
      (Z.of_nat (length out))
    = Ret (Some (map Some (out ++ Encode.encoded str) ++ tail'),
           Z.of_nat (length (out ++ Encode.encoded str)))
    /\ (1 <= length tail')%nat.
Proof.
  revert out tail. induction str as [|c str IH]; intros out tail Hlen.
  - exists tail. cbn. rewrite app_nil_r. split; [reflexivity|].
    cbn in Hlen. lia.
  - unfold Encode.encoded in *. cbn [flat_map] in *.
    rewrite length_app in Hlen.
    cbn [Encode.encode_loop]. unfold Encode.encoded_byte in *.
    destruct (Encode.unreserved c).
    + destruct tail as [|cell tail]; [cbn in Hlen; lia|].
      rewrite poke_next.
      destruct (IH (out ++ [c]) tail) as (tail' & E & L);
        [cbn in Hlen; lia|].
      exists tail'. rewrite length_app in E. cbn [length] in E.
      replace (Z.of_nat (length out + 1)) with (Z.of_nat (length out) + 1)
        in E by lia.
      unfold Encode.buffer in *.
      rewrite E, <- !app_assoc. cbn [app]. auto.
    + unfold Encode.snprintf_code.
      destruct (poke_all_next (Encode.percent_code c ++ [x00]) out tail)
        as (t1 & E1 & L1); [cbn in *; lia|].
      rewrite E1. cbn [Encode.percent_code app] in *.
      set (h := Encode.hex_digit (byte_val c / 16)) in *.
      set (l := Encode.hex_digit (byte_val c mod 16)) in *.
      replace (map Some (out ++ ["%"%byte; h; l; x00]) ++ t1)
        with (map Some (out ++ ["%"%byte; h; l]) ++ Some x00 :: t1)
        by (rewrite !map_app, <- !app_assoc; reflexivity).
      destruct (IH (out ++ ["%"%byte; h; l]) (Some x00 :: t1))
        as (tail' & E & L); [cbn in *; lia|].
      exists tail'. rewrite length_app in E. cbn [length] in E.
      replace (Z.of_nat (length out + 3)) with (Z.of_nat (length out) + 3)
        in E by lia.
      unfold Encode.buffer in *.
      rewrite E, <- !app_assoc. cbn [app]. auto.
Qed.

Lemma encoded_byte_no_nul (c : byte) :
  Forall (fun b => b <> x00) (Encode.encoded_byte c).
Proof. destruct c; vm_compute; repeat constructor; discriminate. Qed.

Lemma encoded_no_nul (str : list byte) :
  Forall (fun b => b <> x00) (Encode.encoded str).
Proof.
  induction str as [|c str IH]; [constructor|].
  unfold Encode.encoded. cbn [flat_map]. apply Forall_app.
  split; [apply encoded_byte_no_nul | exact IH].
Qed.

Lemma c_string_terminated (out : list byte) (tail : Encode.buffer) :
  Forall (fun b => b <> x00) out ->
  Encode.c_string (map Some out ++ Some x00 :: tail) = Ret out.
Proof.
  induction 1 as [|b out Hb _ IH]; [reflexivity|].
  cbn [map app Encode.c_string].
  apply byte_eqb_neq in Hb. rewrite Hb, IH. reflexivity.
Qed.

Lemma url_encode_encoded (str : list byte) :
  Encode.url_encode str = Ret (Encode.encoded str).
Proof.
  unfold Encode.url_encode. rewrite encode_loop_count.
  destruct (encode_loop_fill str []
              (repeat None (Z.to_nat (0 + Z.of_nat
                 (length (Encode.encoded str)) + 1))))
    as (tail' & E & L).
  { rewrite repeat_length. lia. }
  cbn [map app length Z.of_nat] in E. unfold Encode.buffer in *.
  rewrite E.
  destruct tail' as [|cell tail']; [cbn in L; lia|].
  rewrite poke_next.
  rewrite map_app, <- app_assoc. cbn [map app].
  apply c_string_terminated, encoded_no_nul.
Qed.

Lemma encoded_byte_length (c : byte) :
  (1 <= length (Encode.encoded_byte c) <= 3)%nat.
Proof.
  unfold Encode.encoded_byte. destruct (Encode.unreserved c); cbn; lia.
Qed.

Lemma encoded_length (str : list byte) :
  (length str <= length (Encode.encoded str) <= 3 * length str)%nat.
Proof.
  induction str as [|c str IH]; [cbn; lia|].
  unfold Encode.encoded in *. cbn [flat_map length]. rewrite length_app.
  pose proof (encoded_byte_length c). lia.
Qed.

Lemma encoded_byte_alphabet (c : byte) :
  Forall (fun b => Encode.unreserved b = true \/ b = "%"%byte)
    (Encode.encoded_byte c).
Proof.
  destruct c;
    match goal with
    | |- Forall _ ?l =>
        let v := eval vm_compute in l in change l with v
    end;
    repeat (apply Forall_cons;
            [first [left; reflexivity | right; reflexivity]|]);
    apply Forall_nil.
Qed.

Lemma decode_encoded_byte (c : byte) (s : list byte) :
  Encode.percent_decode (Encode.encoded_byte c ++ s)
  = c :: Encode.percent_decode s.
Proof. destruct c; reflexivity. Qed.

Lemma decode_encoded (str : list byte) :
  Encode.percent_decode (Encode.encoded str) = str.
Proof.
  induction str as [|c str IH]; [reflexivity|].
  unfold Encode.encoded in *. cbn [flat_map].
  rewrite decode_encoded_byte, IH. reflexivity.
Qed.

Lemma encoded_unreserved (str : list byte) :
  Forall (fun b => Encode.unreserved b = true) str ->
  Encode.encoded str = str.
Proof.
  induction 1 as [|c str Hc _ IH]; [reflexivity|].
  unfold Encode.encoded in *. cbn [flat_map].
  unfold Encode.encoded_byte at 1. rewrite Hc, IH. reflexivity.
Qed.

Lemma encoded_fixed (str : list byte) :
  Encode.encoded str = str ->
  Forall (fun b => Encode.unreserved b = true) str.
Proof.
  induction str as [|c str IH]; [constructor|].
  unfold Encode.encoded in *. cbn [flat_map].
  unfold Encode.encoded_byte at 1.
  destruct (Encode.unreserved c) eqn:E.
  - intros [= H]. constructor; auto.
  - intros H. apply (f_equal (@length byte)) in H.
    cbn [Encode.percent_code app length] in H.
    pose proof (encoded_length str) as L. unfold Encode.encoded in L. lia.
Qed.

(** X1.  url_encode returns, for every string, the texts of its bytes one
    after the other: an unreserved byte as it is, any other byte as a
    percent sign and two upper-case hexadecimal digits.  No write of the
    filling run falls outside the buffer sized by the measuring run, the
    measured length is the length of the result, and that length lies
    between the length of the input and three times it. *)
Theorem url_encode_result (str : list byte) :
  Encode.url_encode str = Ret (flat_map Encode.encoded_byte str) /\
  Encode.encode_loop None str 0
  = Ret (None, Z.of_nat (length (flat_map Encode.encoded_byte str))) /\
  (length str <= length (flat_map Encode.encoded_byte str)
   <= 3 * length str)%nat.
Proof.
  split; [apply url_encode_encoded|]. split.
  - rewrite encode_loop_count. reflexivity.
  - apply encoded_length.
Qed.

(** X2.  The result of url_encode holds only letters, digits, [-], [_],
    [.], [~] and [%], and is never cut short by a NUL. *)
Theorem url_encode_alphabet (str : list byte) :
  exists out,
    Encode.url_encode str = Ret out /\
    Forall (fun b => Encode.unreserved b = true \/ b = "%"%byte) out /\
    Forall (fun b => b <> x00) out.
Proof.
  exists (Encode.encoded str). split; [apply url_encode_encoded|].
  split; [|apply encoded_no_nul].
  induction str as [|c str IH]; [constructor|].
  unfold Encode.encoded. cbn [flat_map]. apply Forall_app.
  split; [apply encoded_byte_alphabet | exact IH].
Qed.

(** X3.  url_encode gives back its input unchanged exactly when every byte
    of the input is unreserved. *)
Theorem url_encode_identity (str : list byte) :
  Encode.url_encode str = Ret str <->
  Forall (fun b => Encode.unreserved b = true) str.
Proof.
  rewrite url_encode_encoded. split.
  - intros [= H]. now apply encoded_fixed.
  - intros H. now rewrite encoded_unreserved.
Qed.

Lemma url_encode_identity_witness :
  Encode.url_encode (cstr "zip-90210_a.b~c") = Ret (cstr "zip-90210_a.b~c").
Proof.
  apply (proj2 (url_encode_identity (cstr "zip-90210_a.b~c"))).
  repeat constructor.
Defined.

(** X4.  url_encode loses nothing: reading each percent code of the result
    back as the byte it names gives the input again, so two different
    strings never have the same encoding. *)
Theorem url_encode_round_trip :
  (forall str,
     exists out,
       Encode.url_encode str = Ret out /\ Encode.percent_decode out = str) /\
  (forall a b, Encode.url_encode a = Encode.url_encode b -> a = b).
Proof.
  split.
  - intros str. exists (Encode.encoded str).
    split; [apply url_encode_encoded | apply decode_encoded].
  - intros a b. rewrite !url_encode_encoded. intros [= H].
    rewrite <- (decode_encoded a), <- (decode_encoded b), H. reflexivity.
Qed.

Lemma url_encode_round_trip_witness :
  cstr "a b" = cstr "a b".
Proof.
  apply (proj2 url_encode_round_trip (cstr "a b") (cstr "a b")).
  reflexivity.
Defined.

(** ** Reading the body *)

Import Stream.

Lemma read_bytes_app (n m : nat) (s : Http.state) :
  read_bytes (n + m) s
  = match read_bytes n s with
    | Ret (a, s1) =>
        match read_bytes m s1 with
        | Ret (b, s2) => Ret (a ++ b, s2)
        | Exit => Exit
        | Undef => Undef
        | Spin => Spin
        end
    | Exit => Exit
    | Undef => Undef
    | Spin => Spin
    end.
Proof.
  revert s. induction n as [|n IH]; intros s.
  - cbn. destruct (read_bytes m s) as [[b s2]| | |]; reflexivity.
  - cbn [Nat.add read_bytes]. unfold bind.
    destruct (http_req_byte_read s) as [[c s1]| | |]; try reflexivity.
    rewrite IH.
    destruct (read_bytes n s1) as [[a s2]| | |]; try reflexivity.
    unfold ret.
    destruct (read_bytes m s2) as [[b s3]| | |]; reflexivity.
Qed.

Lemma byte_read_buffered (s : Http.state) (b : byte) :
  0 <= chunk_off (req s) -> chunk_off (req s) < chunk_len (req s) ->
  chunk_len (req s) <= CHUNK_SIZE ->
  byte_at (chunk (req s)) (chunk_off (req s)) = b -> b <> x00 ->
  http_req_byte_read s
  = Ret (b, mk_state (set_chunk_off (req s) (chunk_off (req s) + 1)) (net s)).
Proof.
  intros H0 H1 H2 Hb Hnz.
  assert (Hex : exhausted (req s) = false).
  { unfold exhausted. apply orb_false_iff. split; lia. }
  assert (Hin : in_chunk (chunk_off (req s)) 1 = true).
  { unfold in_chunk, CHUNK_SIZE in *.
    repeat (apply andb_true_iff; split); lia. }
  unfold http_req_byte_read, bind.
  rewrite (byte_peek_buffered s Hex Hin), Hb.
  apply byte_eqb_neq in Hnz. rewrite Hnz. reflexivity.
Qed.

Lemma nth_skipn_cons {A} (k : nat) (l : list A) (b d : A) (bs : list A) :
  skipn k l = b :: bs -> nth k l d = b /\ skipn (S k) l = bs.
Proof.
  revert l. induction k as [|k IH]; intros [|x l] H; try discriminate.
  - injection H as <- <-. auto.
  - cbn in H. destruct (IH l H). auto.
Qed.

(** Reading what is buffered: the bytes from the cursor on, as long as
    none of them is 0. *)
Lemma read_bytes_buffered (bs : list byte) :
  forall (s : Http.state) (rest : list byte),
    0 <= chunk_off (req s) ->
    chunk_off (req s) + Z.of_nat (length bs) <= chunk_len (req s) ->
    chunk_len (req s) <= CHUNK_SIZE ->
    skipn (Z.to_nat (chunk_off (req s))) (chunk (req s)) = bs ++ rest ->
    Forall (fun b => b <> x00) bs ->
    read_bytes (length bs) s
    = Ret (bs, mk_state (set_chunk_off (req s)
                           (chunk_off (req s) + Z.of_nat (length bs)))
                        (net s)).
Proof.
  induction bs as [|b bs IH]; intros s rest H0 H1 H2 Hsk Hnz.
  - cbn. destruct s as [[] w]. cbn. rewrite Z.add_0_r. reflexivity.
  - inversion Hnz as [|? ? Hb Hnz']; subst.
    cbn [length] in *. cbn [app] in Hsk.
    destruct (nth_skipn_cons _ _ _ x00 _ Hsk) as [Hn Hsk'].
    cbn [read_bytes]. unfold bind at 1.
    rewrite (byte_read_buffered s b); try lia; [|exact Hn|exact Hb].
    unfold bind at 1.
    rewrite (IH _ rest); cbn [req chunk_off chunk_len chunk set_chunk_off net];
      try lia; try assumption.
    + unfold ret, set_chunk_off. cbn [socket https tls chunk chunk_len].
      replace (chunk_off (req s) + 1 + Z.of_nat (length bs))
        with (chunk_off (req s) + Z.of_nat (S (length bs))) by lia.
      reflexivity.
    + replace (Z.to_nat (chunk_off (req s) + 1))
        with (S (Z.to_nat (chunk_off (req s)))) by lia.
      exact Hsk'.
Qed.

Lemma refill_delivers (r : http_request) (bs : list byte) (w : network) :
  exhausted r = true -> socket r <> 0 ->
  refill (mk_state r (SelectReady (ReadBytes bs) :: w))
  = Ret (true, mk_state (refilled r (firstn (Z.to_nat CHUNK_SIZE) bs))
                        (pending bs w)).
Proof.
  intros Hex Hs. apply Z.eqb_neq in Hs.
  unfold refill, bind, get_req. cbn [req]. rewrite Hex.
  unfold http_req_read. cbn [req net]. rewrite Hs.
  set (a := firstn (Z.to_nat CHUNK_SIZE) bs).
  assert (La : (length a <= 2048)%nat)
    by (subst a; rewrite length_firstn; apply Nat.le_min_l).
  assert (E : in_chunk 0 (Z.of_nat (length a)) = true).
  { unfold in_chunk, CHUNK_SIZE.
    repeat (apply andb_true_iff; split); lia. }
  rewrite E. unfold modify_req. cbn [req net].
  destruct (Z.of_nat (length a) <? 0) eqn:E0; [lia|].
  reflexivity.
Qed.

Lemma byte_read_after_refill (s s1 : Http.state) :
  refill s = Ret (true, s1) -> exhausted (req s1) = false ->
  http_req_byte_read s = http_req_byte_read s1.
Proof.
  intros Hre Hex.
  assert (Hre1 : refill s1 = Ret (true, s1)).
  { unfold refill, bind, get_req. rewrite Hex. reflexivity. }
  unfold http_req_byte_read, http_req_byte_peek, bind.
  rewrite Hre, Hre1. reflexivity.
Qed.

Lemma read_bytes_refill (r : http_request) (bs : list byte) (w : network) :
  exhausted r = true -> socket r <> 0 ->
  bs <> [] -> Forall (fun b => b <> x00) bs ->
  let a := firstn (Z.to_nat CHUNK_SIZE) bs in
  read_bytes (length a) (mk_state r (SelectReady (ReadBytes bs) :: w))
  = Ret (a, mk_state (set_chunk_off (refilled r a) (Z.of_nat (length a)))
                     (pending bs w)).
Proof.
  intros Hex Hs Hne Hnz a.
  assert (La : (1 <= length a <= 2048)%nat).
  { subst a. rewrite length_firstn. destruct bs; [contradiction|].
    cbn [length]. unfold CHUNK_SIZE.
    destruct (Nat.min_spec (Z.to_nat 2048) (S (length bs)))
      as [[? ->]|[? ->]]; lia. }
  assert (Hza : Forall (fun b => b <> x00) a).
  { subst a. rewrite <- (firstn_skipn (Z.to_nat CHUNK_SIZE) bs) in Hnz.
    apply Forall_app in Hnz. tauto. }
  set (s1 := mk_state (refilled r a) (pending bs w)).
  assert (Hex1 : exhausted (req s1) = false).
  { unfold exhausted, s1, refilled. cbn [req chunk_len chunk_off].
    apply orb_false_iff.
    split; [apply Z.eqb_neq | rewrite Z.gtb_ltb; apply Z.ltb_ge]; lia. }
  assert (Hsk : skipn (Z.to_nat (chunk_off (req s1))) (chunk (req s1))
                = a ++ skipn (0 + length a) (chunk r)).
  { unfold s1, refilled. cbn [req chunk chunk_off]. reflexivity. }
  assert (H0 : 0 <= chunk_off (req s1))
    by (unfold s1, refilled; cbn [req chunk_off]; lia).
  assert (H1 : chunk_off (req s1) + Z.of_nat (length a) <= chunk_len (req s1))
    by (unfold s1, refilled; cbn [req chunk_off chunk_len]; lia).
  assert (H2 : chunk_len (req s1) <= CHUNK_SIZE)
    by (unfold s1, refilled, CHUNK_SIZE; cbn [req chunk_len]; lia).
  pose proof (read_bytes_buffered a s1 _ H0 H1 H2 Hsk Hza) as Hrd.
  destruct (length a) as [|n] eqn:El; [lia|].
  cbn [read_bytes] in *. unfold bind at 1. unfold bind at 1 in Hrd.
  rewrite (byte_read_after_refill _ s1 (refill_delivers r bs w Hex Hs) Hex1).
  exact Hrd.
Qed.

(** One piece of any length, read through as many refills as it takes. *)
Lemma read_bytes_piece (n : nat) :
  forall (bs : list byte) (r : http_request) (w : network),
    (length bs <= n)%nat ->
    exhausted r = true -> socket r <> 0 ->
    bs <> [] -> Forall (fun b => b <> x00) bs ->
    exists r',
      read_bytes (length bs) (mk_state r (SelectReady (ReadBytes bs) :: w))
      = Ret (bs, mk_state r' w)
      /\ socket r' = socket r /\ exhausted r' = true.
Proof.
  induction n as [|n IH]; intros bs r w Hn Hex Hs Hne Hnz.
  - destruct bs; [contradiction | cbn in Hn; lia].
  - pose proof (read_bytes_refill r bs w Hex Hs Hne Hnz) as Hfirst.
    cbv zeta in Hfirst.
    set (a := firstn (Z.to_nat CHUNK_SIZE) bs) in *.
    set (r1 := set_chunk_off (refilled r a) (Z.of_nat (length a))) in *.
    assert (Hex1 : exhausted r1 = true).
    { unfold r1, refilled, exhausted. cbn [chunk_len chunk_off set_chunk_off].
      apply orb_true_iff. right. rewrite Z.gtb_ltb. apply Z.ltb_lt. lia. }
    assert (Hs1 : socket r1 = socket r) by reflexivity.
    assert (Hsplit : bs = a ++ skipn (Z.to_nat CHUNK_SIZE) bs)
      by (symmetry; apply firstn_skipn).
    unfold pending in Hfirst.
    destruct (skipn (Z.to_nat CHUNK_SIZE) bs) as [|b later] eqn:El.
    + rewrite app_nil_r in Hsplit. rewrite <- Hsplit in *.
      exists r1. auto.
    + assert (La : (1 <= length a)%nat).
      { unfold a. rewrite length_firstn. unfold CHUNK_SIZE.
        destruct bs as [|b0 bs]; [contradiction|]. cbn [length].
        destruct (Nat.min_spec (Z.to_nat 2048) (S (length bs)))
          as [[? ->]|[? ->]]; lia. }
      assert (Hlen : length bs = (length a + length (b :: later))%nat)
        by (rewrite Hsplit at 1; apply length_app).
      destruct (IH (b :: later) r1 w) as (r' & E & Hs' & Hex');
        try assumption; try discriminate.
      * lia.
      * rewrite Hsplit in Hnz. apply Forall_app in Hnz. tauto.
      * exists r'. rewrite Hlen, read_bytes_app, Hfirst, E.
        rewrite <- Hsplit. repeat split; congruence.
Qed.

(** A refill that finds nothing. *)
Lemma refill_quiet (r : http_request) (ev : net_event) (w : network) :
  exhausted r = true -> socket r <> 0 -> quiet ev = true ->
  refill (mk_state r (ev :: w)) = Ret (true, mk_state (starved r) w).
Proof.
  intros Hex Hs Hq. apply Z.eqb_neq in Hs.
  unfold refill, bind, get_req. cbn [req]. rewrite Hex.
  unfold http_req_read. cbn [req net]. rewrite Hs.
  destruct ev as [| |[|[|b bs]]]; try discriminate Hq.
  - destruct r; reflexivity.
  - destruct r; reflexivity.
Qed.

Lemma byte_read_quiet (r : http_request) (ev : net_event) (w : network) :
  exhausted r = true -> socket r <> 0 -> quiet ev = true ->
  http_req_byte_read (mk_state r (ev :: w))
  = Ret (x00, mk_state (starved r) w).
Proof.
  intros Hex Hs Hq.
  unfold http_req_byte_read, http_req_byte_peek, bind.
  rewrite (refill_quiet r ev w Hex Hs Hq). reflexivity.
Qed.

Lemma seen_delivers (pieces : list (list byte)) :
  Forall (fun bs => bs <> []) pieces -> seen (delivers pieces) = concat pieces.
Proof.
  induction 1 as [|bs pieces Hne _ IH]; [reflexivity|].
  cbn [delivers map seen concat]. fold (delivers pieces).
  destruct bs; [contradiction|]. now rewrite IH.
Qed.

(** The events one after the other, on a connection whose buffer is used
    up. *)
Lemma read_bytes_events (evs : network) :
  forall (r : http_request) (w : network),
    exhausted r = true -> socket r <> 0 -> Forall harmless evs ->
    exists r',
      read_bytes (length (seen evs)) (mk_state r (evs ++ w))
      = Ret (seen evs, mk_state r' w)
      /\ socket r' = socket r /\ exhausted r' = true.
Proof.
  induction evs as [|ev evs IH]; intros r w Hex Hs Hh.
  - exists r. auto.
  - inversion Hh as [|? ? Hev Hh']; subst.
    assert (Hq : quiet ev = true ->
              exists r',
                read_bytes (length (x00 :: seen evs))
                  (mk_state r ((ev :: evs) ++ w))
                = Ret (x00 :: seen evs, mk_state r' w)
                /\ socket r' = socket r /\ exhausted r' = true).
    { intros Hq.
      destruct (IH (starved r) w eq_refl Hs Hh') as (r2 & E2 & Hs2 & Hex2).
      exists r2. cbn [length read_bytes app]. unfold bind at 1.
      rewrite (byte_read_quiet r ev (evs ++ w) Hex Hs Hq).
      unfold bind at 1. rewrite E2. auto. }
    destruct ev as [| |[|[|b bs]]]; try contradiction;
      try (apply Hq; reflexivity).
    cbn [seen].
    destruct (read_bytes_piece (length (b :: bs)) (b :: bs) r (evs ++ w)
                (le_n _) Hex Hs ltac:(discriminate) Hev)
      as (r1 & E1 & Hs1 & Hex1).
    destruct (IH r1 w Hex1 ltac:(congruence) Hh') as (r2 & E2 & Hs2 & Hex2).
    exists r2. rewrite length_app, read_bytes_app.
    cbn [app]. rewrite E1, E2. repeat split; congruence.
Qed.

(** X7.  What the byte accessors hand on: when the buffer holds [buffered]
    from the cursor to chunk_len, no byte of it 0, and the events that
    follow are polls that find nothing, reads of 0 bytes and reads that
    bring bytes other than 0 (no failure of select or read), then calls of
    http_req_byte_read return the buffered bytes, then for every event in
    turn the bytes it brought or, if it brought nothing, a single 0,
    whatever the sizes of the pieces (a piece of more than 2048 bytes
    takes several refills); the socket stays open and the events after
    these are left.  So what the peer sends is handed on in order and
    without loss, and complete as long as every poll finds the next piece
    ready: every poll or read that brings nothing puts a 0 into what the
    caller reads, as the end of the data does. *)
Theorem byte_read_delivers_stream (r : http_request)
    (buffered rest : list byte) (evs w : network) :
  socket r <> 0 ->
  0 <= chunk_off r ->
  chunk_off r + Z.of_nat (length buffered) = chunk_len r ->
  chunk_len r <= CHUNK_SIZE ->
  skipn (Z.to_nat (chunk_off r)) (chunk r) = buffered ++ rest ->
  Forall (fun b => b <> x00) buffered ->
  Forall harmless evs ->
  (exists r',
     read_bytes (length (buffered ++ seen evs)) (mk_state r (evs ++ w))
     = Ret (buffered ++ seen evs, mk_state r' w)
     /\ socket r' = socket r) /\
  (forall pieces,
     evs = delivers pieces -> Forall (fun bs => bs <> []) pieces ->
     seen evs = concat pieces) /\
  (forall before ev after,
     evs = before ++ ev :: after -> quiet ev = true ->
     seen evs = seen before ++ x00 :: seen after).
Proof.
  intros Hs H0 H1 H2 Hsk Hnz Hh. split; [|split].
  - pose proof (read_bytes_buffered buffered
                  (mk_state r (evs ++ w)) rest H0
                  ltac:(cbn [req]; lia) H2 Hsk Hnz) as E1.
    cbn [req net] in E1.
    set (r1 := set_chunk_off r (chunk_off r + Z.of_nat (length buffered)))
      in *.
    assert (Hex1 : exhausted r1 = true).
    { unfold r1, exhausted. cbn [chunk_len chunk_off set_chunk_off].
      apply orb_true_iff. right. rewrite Z.gtb_ltb. apply Z.ltb_lt. lia. }
    destruct (read_bytes_events evs r1 w Hex1 Hs Hh) as (r2 & E2 & Hs2 & _).
    exists r2. rewrite length_app, read_bytes_app, E1, E2. auto.
  - intros pieces -> Hne. now apply seen_delivers.
  - intros before ev after -> Hq. clear Hh.
    induction before as [|e before IH]; cbn [app seen].
    + destruct ev as [| |[|[|b bs]]]; try discriminate Hq; reflexivity.
    + destruct e as [| |[|[|b bs]]]; rewrite IH; try reflexivity.
      cbn [app]. now rewrite app_assoc.
Qed.

Lemma byte_read_delivers_stream_witness :
  exists r',
    read_bytes 9
      (mk_state (mk_req 3 false false (cstr "[1," ++ [x00; x00]) 3 0)
         [SelectReady (ReadBytes (cstr "23,")); SelectIdle;
          SelectReady (ReadBytes (cstr "4]"))])
    = Ret (cstr "[1,23," ++ x00 :: cstr "4]", mk_state r' [])
    /\ socket r' = 3.
Proof.
  apply (proj1 (byte_read_delivers_stream
           (mk_req 3 false false (cstr "[1," ++ [x00; x00]) 3 0)
           (cstr "[1,") [x00; x00]
           [SelectReady (ReadBytes (cstr "23,")); SelectIdle;
            SelectReady (ReadBytes (cstr "4]"))] []
           ltac:(discriminate) ltac:(cbn; lia) eq_refl
           ltac:(unfold CHUNK_SIZE; cbn; lia) eq_refl
           ltac:(repeat constructor; discriminate)
           ltac:(repeat constructor; discriminate))).
Defined.

(** ** Finding the header in one read *)

Lemma split_header_spec (s h body : list byte) :
  split_header s = Some (h, body) -> s = h ++ terminator ++ body.
Proof.
  revert h. induction s as [|b s IH]; intros h; [discriminate|].
  cbn [split_header].
  destruct (starts_with terminator (b :: s)) eqn:E.
  - intros [= <- <-].
    destruct s as [|b1 [|b2 [|b3 s]]]; cbn in E;
      rewrite ?andb_false_r in E; try discriminate.
    repeat (apply andb_true_iff in E as [? E]).
    repeat match goal with
           | H : Byte.eqb _ _ = true |- _ => apply byte_eqb_eq in H; subst
           end.
    reflexivity.
  - destruct (split_header s) as [[h' body']|]; [|discriminate].
    intros [= <- <-]. rewrite (IH h' eq_refl). reflexivity.
Qed.

Lemma split_header_short (s : list byte) :
  (length s < 4)%nat -> split_header s = None.
Proof.
  intros H. destruct s as [|b0 [|b1 [|b2 [|b3 s]]]]; cbn [length] in H;
    try lia; cbn; repeat (rewrite andb_false_r; cbn); reflexivity.
Qed.

Lemma byte_at_app (pre l : list byte) (i : nat) :
  byte_at (pre ++ l) (Z.of_nat (length pre) + Z.of_nat i) = nth i l x00.
Proof.
  unfold byte_at.
  replace (Z.to_nat (Z.of_nat (length pre) + Z.of_nat i))
    with (length pre + i)%nat by lia.
  rewrite app_nth2 by lia. f_equal. lia.
Qed.

Lemma at_terminator_window (pre s rest : list byte) :
  (4 <= length s)%nat ->
  at_terminator (pre ++ s ++ rest) (Z.of_nat (length pre) + 3)
  = starts_with terminator s.
Proof.
  intros H. destruct s as [|b0 [|b1 [|b2 [|b3 s]]]]; cbn in H; try lia.
  unfold at_terminator.
  replace (Z.of_nat (length pre) + 3 - 3)
    with (Z.of_nat (length pre) + Z.of_nat 0) by lia.
  replace (Z.of_nat (length pre) + 3 - 2)
    with (Z.of_nat (length pre) + Z.of_nat 1) by lia.
  replace (Z.of_nat (length pre) + 3 - 1)
    with (Z.of_nat (length pre) + Z.of_nat 2) by lia.
  replace (Z.of_nat (length pre) + 3)
    with (Z.of_nat (length pre) + Z.of_nat 3) by lia.
  rewrite !byte_at_app. cbn. rewrite andb_true_r, !andb_assoc. reflexivity.
Qed.

Ltac ltb_case :=
  match goal with
  | |- context [?a <? ?b] => destruct (Z.ltb_spec a b)
  end.

(** The scan of the loop finds the first terminator of what was read. *)
Lemma find_terminator_split (s : list byte) :
  forall (pre rest : list byte) (room : nat),
    (length s <= room + 3)%nat ->
    find_terminator (pre ++ s ++ rest) (Z.of_nat (length (pre ++ s)))
      (Z.of_nat (length pre) + 3) room
    = match split_header s with
      | Some (h, _) => Found (Z.of_nat (length pre + length h) + 3)
      | None => NotFound
      end.
Proof.
  induction s as [|b s IH]; intros pre rest room Hroom.
  - rewrite app_nil_r. cbn [split_header].
    destruct room; cbn [find_terminator];
      ltb_case; try reflexivity; lia.
  - destruct (Nat.lt_ge_cases (length (b :: s)) 4) as [Hs|Hs].
    + rewrite (split_header_short _ Hs).
      rewrite length_app.
      cbn [length] in *.
      destruct room; cbn [find_terminator];
        ltb_case; try reflexivity; lia.
    + destruct room as [|room]; [cbn [length] in *; lia|].
      cbn [find_terminator]. rewrite length_app.
      ltb_case; [|cbn [length] in *; lia].
      rewrite (at_terminator_window pre (b :: s) rest Hs).
      cbn [split_header].
      destruct (starts_with terminator (b :: s)).
      * cbn [length]. do 2 f_equal. lia.
      * specialize (IH (pre ++ [b]) rest room).
        rewrite <- !app_assoc in IH. cbn [app] in IH.
        rewrite !length_app in IH. cbn [length] in *.
        replace (Z.of_nat (length pre) + 3 + 1)
          with (Z.of_nat (length pre + 1) + 3) by lia.
        cbn [app length].
        rewrite IH by lia.
        destruct (split_header s) as [[h body]|]; [|reflexivity].
        cbn [length]. do 2 f_equal. lia.
Qed.

Lemma firstn_all_app {A} (a t : list A) (n : nat) :
  n = length a -> firstn n (a ++ t) = a.
Proof. intros ->. apply firstn_prefix. Qed.

Lemma skip_header_iteration_found (r : http_request) (bs h body : list byte)
    (w : network) :
  socket r <> 0 -> chunk_len r = 0 -> (length bs <= 2048)%nat ->
  split_header bs = Some (h, body) ->
  skip_header_iteration (mk_state r (SelectReady (ReadBytes bs) :: w))
  = Ret (Some 1, mk_state (header_skipped r bs body) w).
Proof.
  intros Hs Hl Hlen Hsp.
  pose proof (split_header_spec _ _ _ Hsp) as Hbs.
  assert (Lbs : length bs = (length h + 4 + length body)%nat)
    by (rewrite Hbs, !length_app; cbn; lia).
  apply Z.eqb_neq in Hs.
  destruct r as [sock ht tl ch cl co]. cbn [socket chunk_len] in Hs, Hl.
  subst cl. unfold header_skipped. cbn [socket https tls chunk].
  unfold skip_header_iteration, bind, keep_tail, bind, get_req.
  cbn [req chunk_len Z.gtb Z.compare]. unfold ret at 1.
  unfold http_req_read. cbn [req net socket chunk chunk_len]. rewrite Hs.
  change (to_size_t (CHUNK_SIZE - to_size_t 0)) with 2048.
  rewrite firstn_all2 by lia. rewrite skipn_all2 by lia.
  assert (E : in_chunk 0 (Z.of_nat (length bs)) = true).
  { unfold in_chunk, CHUNK_SIZE. repeat (apply andb_true_iff; split); lia. }
  rewrite E. cbn [req net].
  rewrite (to_size_t_small (Z.of_nat (length bs))) by lia.
  destruct (Z.ltb_spec (Z.of_nat (length bs)) 0); [lia|].
  destruct (Z.eqb_spec (Z.of_nat (length bs)) 0); [lia|].
  unfold modify_req. cbn [req net chunk chunk_len set_chunk set_chunk_len].
  change (to_size_t 0) with 0. rewrite Z.add_0_l.
  rewrite to_ssize_t_small by lia. rewrite to_size_t_small by lia.
  assert (Hfind : find_terminator (write_at 0 bs ch)
            (Z.of_nat (length bs)) 3 (Z.to_nat (CHUNK_SIZE - 3))
          = Found (Z.of_nat (length h) + 3)).
  { pose proof (find_terminator_split bs [] (skipn (0 + length bs) ch)
                  (Z.to_nat (CHUNK_SIZE - 3))) as F.
    cbn [app length Z.of_nat Nat.add] in F. rewrite Hsp in F.
    unfold write_at. cbn [Z.to_nat firstn app Z.add] in *. apply F.
    unfold CHUNK_SIZE. lia. }
  rewrite Hfind. cbv beta iota. unfold drop_header, bind, get_req.
  cbn [req net chunk chunk_len set_chunk set_chunk_len set_chunk_off
       socket https tls chunk_off].
  rewrite (to_size_t_small (Z.of_nat (length bs))) by lia.
  replace (Z.of_nat (length bs) - (Z.of_nat (length h) + 3 + 1))
    with (Z.of_nat (length body)) by lia.
  rewrite to_ssize_t_small by lia. rewrite to_size_t_small by lia.
  unfold memmove.
  assert (E1 : in_chunk 0 (Z.of_nat (length body)) = true).
  { unfold in_chunk, CHUNK_SIZE. repeat (apply andb_true_iff; split); lia. }
  assert (E2 : in_chunk (Z.of_nat (length h) + 3 + 1)
                 (Z.of_nat (length body)) = true).
  { unfold in_chunk, CHUNK_SIZE. repeat (apply andb_true_iff; split); lia. }
  rewrite E1, E2. cbn [andb].
  assert (Hbody : firstn (Z.to_nat (Z.of_nat (length body)))
            (skipn (Z.to_nat (Z.of_nat (length h) + 3 + 1))
               (write_at 0 bs ch)) = body).
  { unfold write_at. cbn [Z.to_nat firstn app].
    replace (Z.to_nat (Z.of_nat (length h) + 3 + 1))
      with (length (h ++ terminator)) by (rewrite length_app; cbn; lia).
    rewrite Hbs at 1. rewrite <- !app_assoc.
    rewrite (app_assoc h terminator), skipn_prefix.
    apply firstn_all_app. lia. }
  rewrite Hbody. reflexivity.
Qed.

Lemma skip_header_iteration_quiet (r : http_request) (ev : net_event)
    (w : network) :
  socket r <> 0 -> 0 <= chunk_len r <= 3 -> quiet ev = true ->
  exists r',
    skip_header_iteration (mk_state r (ev :: w)) = Ret (None, mk_state r' w)
    /\ socket r' = socket r /\ chunk_len r' = chunk_len r
    /\ (chunk_len r = 0 -> r' = r).
Proof.
  intros Hs Hl Hq. apply Z.eqb_neq in Hs.
  unfold skip_header_iteration, bind, keep_tail, bind, get_req. cbn [req].
  destruct (Z.gtb_spec (chunk_len r) 3); [lia|].
  unfold ret at 1. unfold http_req_read. cbn [req net]. rewrite Hs.
  destruct ev as [| |[|[|b bs]]]; try discriminate.
  - exists r. auto.
  - cbn [firstn skipn length Z.of_nat].
    assert (E : in_chunk (chunk_len r) 0 = true).
    { unfold in_chunk, CHUNK_SIZE. repeat (apply andb_true_iff; split); lia. }
    replace (firstn (Z.to_nat _) (@nil byte)) with (@nil byte)
      by (now rewrite firstn_nil).
    replace (skipn (Z.to_nat _) (@nil byte)) with (@nil byte)
      by (now rewrite skipn_nil).
    cbn [length Z.of_nat]. rewrite E.
    exists (set_chunk r (write_at (chunk_len r) [] (chunk r))).
    repeat split.
    intros H0. rewrite H0. destruct r; reflexivity.
Qed.

Lemma skip_header_after_quiet (q : network) :
  forall (r : http_request) (w : network) (fuel : nat),
    socket r <> 0 -> chunk_len r = 0 -> forallb quiet q = true ->
    http_req_skip_header (length q + fuel) (mk_state r (q ++ w))
    = http_req_skip_header fuel (mk_state r w).
Proof.
  induction q as [|ev q IH]; intros r w fuel Hs Hl Hq; [reflexivity|].
  cbn [forallb] in Hq. apply andb_true_iff in Hq as [Hev Hq].
  cbn [length Nat.add app http_req_skip_header]. unfold bind at 1.
  destruct (skip_header_iteration_quiet r ev (q ++ w) Hs ltac:(lia) Hev)
    as (r' & E & _ & _ & Hr).
  rewrite E, (Hr Hl). now apply IH.
Qed.

(** X5.  When the header and its terminator arrive in one read of at most
    2048 bytes on a connection whose buffer is empty, after any number of
    polls that brought nothing, http_req_skip_header returns 1 and leaves
    exactly the bytes after the first terminator at the start of the
    buffer, with chunk_off = 0 and chunk_len their number; the events that
    follow are left for later reads. *)
Theorem skip_header_single_read (r : http_request) (q w : network)
    (bs h body : list byte) (fuel : nat) :
  socket r <> 0 -> chunk_len r = 0 -> forallb quiet q = true ->
  (length bs <= 2048)%nat -> split_header bs = Some (h, body) ->
  bs = h ++ terminator ++ body /\
  http_req_skip_header (length q + S fuel)
    (mk_state r (q ++ SelectReady (ReadBytes bs) :: w))
  = Ret (1, mk_state (header_skipped r bs body) w) /\
  chunk_off (header_skipped r bs body) = 0 /\
  chunk_len (header_skipped r bs body) = Z.of_nat (length body) /\
  firstn (length body) (chunk (header_skipped r bs body)) = body.
Proof.
  intros Hs Hl Hq Hlen Hsp.
  split; [now apply split_header_spec|].
  split.
  - rewrite skip_header_after_quiet by assumption.
    cbn [http_req_skip_header]. unfold bind.
    rewrite (skip_header_iteration_found r bs h body w Hs Hl Hlen Hsp).
    reflexivity.
  - repeat split. unfold header_skipped, write_at.
    cbn [chunk Z.to_nat firstn app].
    apply firstn_prefix.
Qed.

Lemma skip_header_single_read_witness :
  http_req_skip_header 3
    (mk_state (fresh 3 false)
       [SelectIdle; SelectReady (ReadBytes []);
        SelectReady (ReadBytes (cstr "HTTP/1.0 200 OK"
                                  ++ terminator ++ cstr "{}"))])
  = Ret (1, mk_state
              (header_skipped (fresh 3 false)
                 (cstr "HTTP/1.0 200 OK" ++ terminator ++ cstr "{}")
                 (cstr "{}")) []).
Proof.
  apply (skip_header_single_read (fresh 3 false)
           [SelectIdle; SelectReady (ReadBytes [])] []
           (cstr "HTTP/1.0 200 OK" ++ terminator ++ cstr "{}")
           (cstr "HTTP/1.0 200 OK") (cstr "{}") 0).
  - discriminate.
  - reflexivity.
  - reflexivity.
  - vm_compute. lia.
  - reflexivity.
Defined.

(** X6.  On a connection that only ever gets polls without data and reads
    of 0 bytes (a peer that stays silent or has closed), with at most 3
    bytes buffered, http_req_skip_header does not return: every bound on
    the number of iterations is used up. *)
Theorem skip_header_starved (w : network) :
  forall (r : http_request) (fuel : nat),
    socket r <> 0 -> 0 <= chunk_len r <= 3 -> forallb quiet w = true ->
    http_req_skip_header fuel (mk_state r w) = Spin.
Proof.
  induction w as [|ev w IH]; intros r fuel Hs Hl Hq.
  - apply skip_header_idle; [assumption|lia].
  - destruct fuel as [|fuel]; [reflexivity|].
    cbn [forallb] in Hq. apply andb_true_iff in Hq as [Hev Hq].
    cbn [http_req_skip_header]. unfold bind at 1.
    destruct (skip_header_iteration_quiet r ev w Hs Hl Hev)
      as (r' & E & Hs' & Hl' & _).
    rewrite E. apply IH; [congruence | lia | assumption].
Qed.

Lemma skip_header_starved_witness :
  http_req_skip_header 5
    (mk_state (fresh 3 false) [SelectIdle; SelectReady (ReadBytes [])])
  = Spin.
Proof.
  apply skip_header_starved.
  - discriminate.
  - cbn. lia.
  - reflexivity.
Defined.

(** ** fetch_weather as a whole *)

Import Fetch.

(** X8.  With a connection from http_get, fetch_weather never takes its
    "failed reading HTTP body" exit: http_req_skip_header cannot return
    anything but 1, so whenever fetch_weather returns it returns 0 and has
    overwritten the globals with what the pass gave. *)
Theorem fetch_weather_never_reports_transport {double : Type}
    (double_zero : double) (double_to_int : double -> Z) (fahrenheit : bool)
    (s : Http.state) (fuel : nat) (toks : list (token double))
    (g g' : globals double) (r : Z) :
  fetch_weather double_zero double_to_int fahrenheit (Some s) fuel toks g
  = Ret (r, g') ->
  r = 0 /\ g' = read_body double_zero double_to_int fahrenheit toks.
Proof.
  unfold fetch_weather.
  destruct (http_req_skip_header fuel s) as [[v s']| | |] eqn:E;
    try discriminate.
  apply skip_header_returns in E as [-> _].
  cbn. intros [= <- <-]. auto.
Qed.

Lemma fetch_weather_never_reports_transport_witness :
  0 = 0 /\
  read_body 0 (fun z => z) true malformed
  = read_body 0 (fun z => z) true malformed.
Proof.
  apply (fetch_weather_never_reports_transport 0 (fun z => z) true
           answered 1 malformed untouched
           (read_body 0 (fun z => z) true malformed) 0).
  vm_compute. reflexivity.
Defined.

Lemma step_in_main_stays {double : Type} (double_to_int : double -> Z)
    (t : token double) (p : pass double) :
  state p = STATE_IN_MAIN \/ state p = STATE_IN_MAIN_TEMP ->
  (state (step double_to_int t p) = STATE_IN_MAIN \/
   state (step double_to_int t p) = STATE_IN_MAIN_TEMP) /\
  conditions (step double_to_int t p) = conditions p /\
  weather_id (step double_to_int t p) = weather_id p /\
  night (step double_to_int t p) = night p.
Proof.
  assert (L : conditions (load_str t p) = conditions p /\
              weather_id (load_str t p) = weather_id p /\
              night (load_str t p) = night p)
    by (unfold load_str; destruct (json_type_eqb _ _); cbn; auto).
  intros Hst. unfold step, dispatch. rewrite load_str_state.
  destruct Hst as [Hst|Hst]; rewrite Hst.
  - destruct (is_key t (load_str t p) "temp"); cbn.
    + split; [auto | exact L].
    + rewrite load_str_state. split; [auto | exact L].
  - cbn. split; [auto | exact L].
Qed.

(** X9.  Once the pass has seen the key main at top level it never leaves
    the states IN_MAIN and IN_MAIN_TEMP again: no token after it changes
    the weather code, the night flag or the description, so a document
    whose weather entry comes after main loses these three values. *)
Theorem pass_stays_in_main {double : Type} (double_to_int : double -> Z)
    (toks : list (token double)) (p : pass double) :
  state p = STATE_IN_MAIN \/ state p = STATE_IN_MAIN_TEMP ->
  let q := snd (run_pass double_to_int toks p) in
  (state q = STATE_IN_MAIN \/ state q = STATE_IN_MAIN_TEMP) /\
  conditions q = conditions p /\
  weather_id q = weather_id p /\
  night q = night p.
Proof.
  revert p. induction toks as [|t toks IH]; intros p Hst; [cbn; auto|].
  cbn [run_pass].
  destruct (json_type_eqb (tok_type t) JSON_DONE); [cbn; auto|].
  destruct (tok_error t); [cbn; auto|].
  destruct (step_in_main_stays double_to_int t p Hst) as (H1 & H2 & H3 & H4).
  destruct (IH _ H1) as (G1 & G2 & G3 & G4).
  cbv zeta. rewrite G2, G3, G4. auto.
Qed.

Lemma pass_stays_in_main_witness :
  weather_id
    (snd (run_pass (fun z => z)
            [tok JSON_STRING "weather" 0; tok JSON_ARRAY "" 0;
             tok JSON_OBJECT "" 0; tok JSON_STRING "id" 0;
             tok JSON_NUMBER "" 800]
            (step (fun z => z) (tok JSON_STRING "main" 0) (initial_pass 0))))
  = 0.
Proof.
  apply (pass_stays_in_main (fun z => z)).
  left. reflexivity.
Defined.

Lemma capitalize_length (s : list byte) : length (capitalize s) = length s.
Proof. destruct s; reflexivity. Qed.

Lemma step_conditions_fit {double : Type} (double_to_int : double -> Z)
    (t : token double) (p : pass double) :
  (length (conditions p) <= 99)%nat ->
  (length (conditions (step double_to_int t p)) <= 99)%nat.
Proof.
  assert (L : conditions (load_str t p) = conditions p)
    by (unfold load_str; destruct (json_type_eqb _ _); reflexivity).
  intros H. unfold step, dispatch.
  destruct (state (load_str t p));
    repeat match goal with
           | |- context [if ?c then _ else _] => destruct c
           end;
    cbn [conditions goto]; rewrite ?L; try exact H.
  rewrite capitalize_length. unfold strlcpy_conditions.
  rewrite length_firstn. apply Nat.le_min_l.
Qed.

(** X10.  The text of current_conditions never outgrows its 100 bytes: at
    every point of the pass it is at most 99 bytes long, whatever strings
    the tokens carry, so the size the last snprintf is given,
    sizeof(current_conditions) - strlen(current_conditions), is at least 1
    and the final text is at most 99 bytes as well. *)
Theorem conditions_fit {double : Type} (double_zero : double)
    (double_to_int : double -> Z) (fahrenheit : bool)
    (toks : list (token double)) :
  (length (conditions
             (snd (run_pass double_to_int toks
                     (initial_pass double_zero)))) <= 99)%nat /\
  (length (current_conditions
             (read_body double_zero double_to_int fahrenheit toks)) <= 99)%nat.
Proof.
  assert (G : forall p : pass double,
            (length (conditions p) <= 99)%nat ->
            (length (conditions (snd (run_pass double_to_int toks p)))
             <= 99)%nat).
  { induction toks as [|t toks IH]; intros p H; [exact H|].
    cbn [run_pass].
    destruct (json_type_eqb (tok_type t) JSON_DONE); [exact H|].
    destruct (tok_error t); [exact H|].
    apply IH. now apply step_conditions_fit. }
  split.
  - apply G. vm_compute. lia.
  - unfold read_body, append_conditions. cbn [current_conditions].
    rewrite length_firstn. apply Nat.le_min_l.
Qed.

(** X11.  For the answer of the API with one weather entry and the
    temperature, whose weather group (the value of the inner key main) is
    not itself one of the texts id, description and icon, fetch_weather
    extracts all four values: the title is the description with its first
    byte in upper case followed by the temperature, the temperature is the
    number after temp, and the icon is the one the weather code and the
    third byte of the icon text select. *)
Theorem weather_document_extracted {double : Type} (zero : double)
    (double_to_int : double -> Z) (fahrenheit : bool)
    (id t : double) (group desc icon : list byte) :
  group <> cstr "id" -> group <> cstr "description" ->
  group <> cstr "icon" ->
  read_body zero double_to_int fahrenheit
    (weather_document zero id group desc icon t)
  = mk_globals double
      (append_conditions (capitalize (strlcpy_conditions desc))
         (temperature_suffix double_to_int fahrenheit t))
      t
      (condition_icon (double_to_int id)
         (if Byte.eqb (nth 2 icon x00) "n" then 1 else 0)).
Proof.
  intros H1 H2 H3.
  assert (E1 : streq group (cstr "id") = false)
    by (destruct (streq group (cstr "id")) eqn:E;
        [apply streq_eq in E; contradiction | reflexivity]).
  assert (E2 : streq group (cstr "description") = false)
    by (destruct (streq group (cstr "description")) eqn:E;
        [apply streq_eq in E; contradiction | reflexivity]).
  assert (E3 : streq group (cstr "icon") = false)
    by (destruct (streq group (cstr "icon")) eqn:E;
        [apply streq_eq in E; contradiction | reflexivity]).
  unfold read_body, weather_document, initial_pass.
  repeat
    (cbn -[streq condition_icon append_conditions temperature_suffix
           capitalize strlcpy_conditions cstr nth Byte.eqb];
     first
       [ rewrite E1 | rewrite E2 | rewrite E3
       | match goal with
         | |- context [streq ?a ?b] =>
             let v := eval vm_compute in (streq a b) in
             match v with
             | true => change (streq a b) with true
             | false => change (streq a b) with false
             end
         end ]).
  reflexivity.
Qed.

Lemma weather_document_extracted_witness :
  read_body 0 (fun z => z) true
    (weather_document 0 800 (cstr "Clear") (cstr "clear sky") (cstr "01d") 72)
  = mk_globals Z (cstr "Clear sky, 72" ++ [xb0; "F"%byte]) 72 ICON_SUN.
Proof.
  apply (weather_document_extracted 0 (fun z => z) true 800 72
           (cstr "Clear") (cstr "clear sky") (cstr "01d"));
    discriminate.
Defined.

Lemma forall_firstn {A} (P : A -> Prop) (n : nat) (l : list A) :
  Forall P l -> Forall P (firstn n l).
Proof.
  intros H. rewrite <- (firstn_skipn n l) in H.
  apply Forall_app in H. tauto.
Qed.

Lemma weather_path_clean (zipcode api_key : list byte) (fahrenheit : bool) :
  Forall (fun b => isspace b = false /\ b <> ":"%byte) zipcode ->
  Forall (fun b => isspace b = false /\ b <> ":"%byte) api_key ->
  Forall (fun b => isspace b = false /\ b <> ":"%byte)
    (weather_path zipcode api_key fahrenheit).
Proof.
  intros Hz Hk. unfold weather_path.
  repeat (apply Forall_app; split); try assumption;
    try (destruct fahrenheit); forall_bytes.
Qed.

(** X12.  The address fetch_weather builds is one url_parse takes apart as
    intended: for a zip code and an API key without white space and
    without ':', whatever their length, url_parse returns the scheme of
    the build, the host api.openweathermap.org, the default port of the
    scheme, and as path the request path with the zip code, the key and
    the units, cut where the 255 bytes of the address end. *)
Theorem weather_url_parses (tls_build fahrenheit : bool)
    (zipcode api_key : list byte) :
  Forall (fun b => isspace b = false /\ b <> ":"%byte) zipcode ->
  Forall (fun b => isspace b = false /\ b <> ":"%byte) api_key ->
  Url.url_parse (weather_url tls_build zipcode api_key fahrenheit)
  = Ret (Some (Url.mk_url
                 (if tls_build then cstr "https" else cstr "http")
                 (cstr "api.openweathermap.org")
                 (if tls_build then 443 else 80)
                 (firstn (if tls_build then 225 else 226)
                    (weather_path zipcode api_key fahrenheit)))).
Proof.
  intros Hz Hk.
  pose proof (weather_path_clean zipcode api_key fahrenheit Hz Hk) as Hp.
  set (sch := if tls_build then cstr "https" else cstr "http").
  set (k := if tls_build then 225%nat else 226%nat).
  assert (E : weather_url tls_build zipcode api_key fahrenheit
              = sch ++ cstr "://" ++ cstr "api.openweathermap.org"
                ++ firstn k (weather_path zipcode api_key fahrenheit)).
  { unfold weather_url, weather_path, sch, k.
    destruct tls_build; reflexivity. }
  rewrite E.
  rewrite url_parse_without_port.
  - unfold sch. destruct tls_build; reflexivity.
  - unfold sch. destruct tls_build; discriminate.
  - unfold sch. destruct tls_build; forall_bytes.
  - discriminate.
  - forall_bytes.
  - unfold weather_path, k. destruct tls_build; eexists; reflexivity.
  - apply forall_firstn. exact Hp.
Qed.

Lemma weather_url_parses_witness :
  Url.url_parse (weather_url true (cstr "90210") (cstr "0123456789abcdef") true)
  = Ret (Some (Url.mk_url (cstr "https") (cstr "api.openweathermap.org") 443
                 (weather_path (cstr "90210") (cstr "0123456789abcdef") true))).
Proof.
  apply (weather_url_parses true true (cstr "90210") (cstr "0123456789abcdef"));
    forall_bytes.
Defined.

(** ** http_get *)

Import Connect.

Lemma request_text_length (path host progname : list byte) :
  length (request_text path host progname)
  = (52 + length path + length host + length progname)%nat.
Proof. unfold request_text. rewrite !length_app. cbn. lia. Qed.

Lemma request_text_ends (path host progname : list byte) :
  exists front, request_text path host progname = front ++ [LF].
Proof.
  unfold request_text.
  exists (cstr "GET " ++ path ++ cstr " HTTP/1.0" ++ [CR; LF]
          ++ cstr "Host: " ++ host ++ [CR; LF]
          ++ cstr "User-Agent: " ++ progname ++ [CR; LF]
          ++ cstr "Accept: */*" ++ [CR; LF] ++ [CR]).
  rewrite <- !app_assoc. reflexivity.
Qed.

Lemma http_get_steps (tls_build : bool) (progname : list byte)
    (sys : host_answers) (surl : list byte) (url : Url.url) :
  Url.url_parse surl = Ret (Some url) ->
  goes_through tls_build sys url progname ->
  let text := request_text (Url.path url) (Url.host url) progname in
  let tlen := 256 + Z.of_nat (length (Url.host url))
              + Z.of_nat (length (Url.path url)) in
  http_get tls_build progname sys surl
  = if Z.of_nat (length text) >? tlen then Exit
    else Ret (Some (mk_connected
                      (fresh (new_socket sys)
                         (streq (Url.scheme url) (cstr "https")))
                      (firstn (length text)
                         (firstn (Z.to_nat (tlen - 1)) text ++ [x00])))).
Proof.
  intros Hp (Htls & Hr & Hs & Hc & Hw) text tlen.
  unfold http_get. rewrite Hp.
  destruct (streq (Url.scheme url) (cstr "https")) eqn:Esch.
  - apply streq_eq in Esch. destruct (Htls Esch) as (-> & -> & ->).
    rewrite Hr, Hc. apply Z.eqb_neq in Hs. rewrite Hs. cbn [andb negb].
    unfold snprintf_text. fold text. fold tlen.
    destruct (tlen <=? 0) eqn:E0; [unfold tlen in E0; lia|].
    destruct (Z.of_nat (length text) >? tlen); [reflexivity|].
    unfold text. rewrite Hw, Z.eqb_refl, Nat2Z.id. reflexivity.
  - rewrite Hr, Hc. apply Z.eqb_neq in Hs. rewrite Hs. cbn [andb negb].
    unfold snprintf_text. fold text. fold tlen.
    destruct (tlen <=? 0) eqn:E0; [unfold tlen in E0; lia|].
    destruct (Z.of_nat (length text) >? tlen); [reflexivity|].
    unfold text. rewrite Hw, Z.eqb_refl, Nat2Z.id. reflexivity.
Qed.

(** X13.  When the address parses and the system lets http_get through
    (the host resolves, the socket connects, the TLS handshake succeeds
    for https, the write takes the whole message), the connection returned
    is a fresh one on the new socket and the bytes sent are exactly
    GET path HTTP/1.0, Host, User-Agent and Accept lines and the empty
    line, each ended by \r\n - provided the program name has at most 203
    bytes.  With a name of 204 bytes the test [len > tlen] still passes
    and what is sent ends in a NUL instead of the last \n; with a longer
    name http_get ends the process. *)
Theorem http_get_request (tls_build : bool) (progname : list byte)
    (sys : host_answers) (surl : list byte) (url : Url.url) :
  Url.url_parse surl = Ret (Some url) ->
  goes_through tls_build sys url progname ->
  let text := request_text (Url.path url) (Url.host url) progname in
  let made := fresh (new_socket sys) (streq (Url.scheme url) (cstr "https")) in
  ((length progname <= 203)%nat ->
   http_get tls_build progname sys surl
   = Ret (Some (mk_connected made text))) /\
  (length progname = 204%nat ->
   http_get tls_build progname sys surl
   = Ret (Some (mk_connected made (removelast text ++ [x00])))) /\
  ((205 <= length progname)%nat ->
   http_get tls_build progname sys surl = Exit).
Proof.
  intros Hp Hg text made.
  pose proof (http_get_steps tls_build progname sys surl url Hp Hg) as E.
  cbv zeta in E. fold text made in E.
  pose proof (request_text_length (Url.path url) (Url.host url) progname) as L.
  fold text in L.
  set (tlen := 256 + Z.of_nat (length (Url.host url))
               + Z.of_nat (length (Url.path url))) in *.
  split; [|split]; intros Hn; rewrite E.
  - destruct (Z.gtb_spec (Z.of_nat (length text)) tlen);
      [unfold tlen in *; lia|].
    do 3 f_equal. rewrite firstn_app.
    rewrite (firstn_all2 (n := Z.to_nat (tlen - 1)))
      by (unfold tlen; lia).
    rewrite firstn_all, Nat.sub_diag. cbn [firstn]. apply app_nil_r.
  - destruct (Z.gtb_spec (Z.of_nat (length text)) tlen);
      [unfold tlen in *; lia|].
    do 3 f_equal.
    destruct (request_text_ends (Url.path url) (Url.host url) progname)
      as [front Hf].
    fold text in Hf.
    assert (Lf : length text = S (length front))
      by (rewrite Hf, length_app; cbn; lia).
    replace (Z.to_nat (tlen - 1)) with (length front)
      by (unfold tlen; lia).
    rewrite Hf at 2 3. rewrite firstn_prefix, removelast_last.
    apply firstn_all2. rewrite length_app. cbn [length]. lia.
  - destruct (Z.gtb_spec (Z.of_nat (length text)) tlen);
      [reflexivity | unfold tlen in *; lia].
Qed.

Lemma http_get_request_witness :
  http_get true (cstr "xweathericon") (obliging 3) (cstr "http://h/p")
  = Ret (Some (mk_connected (fresh 3 false)
                 (request_text (cstr "/p") (cstr "h") (cstr "xweathericon")))).
Proof.
  assert (G : goes_through true (obliging 3)
                (Url.mk_url (cstr "http") (cstr "h") 80 (cstr "/p"))
                (cstr "xweathericon")).
  { split; [intros H; discriminate H|].
    repeat split. discriminate. }
  apply (proj1 (http_get_request true (cstr "xweathericon") (obliging 3)
                  (cstr "http://h/p")
                  (Url.mk_url (cstr "http") (cstr "h") 80 (cstr "/p"))
                  eq_refl G)).
  vm_compute. lia.
Defined.

(** ** The waiting of the main loop *)

(** X14.  The wait main asks of poll fits the test it makes afterwards:
    for an interval of at least one second and a clock that has not gone
    backwards, the wait is between 0 and the interval; it is 0 exactly
    when a fetch is due already; and once the wait has passed a fetch is
    due, so the loop cannot go round without either waiting or fetching.
    Up to an interval of 2147483 seconds the timeout handed to poll is the
    wait in milliseconds; from 2147484 seconds on it no longer fits the
    int and a full wait comes out negative. *)
Theorem poll_wait_consistent (interval delta : Z) :
  1 <= interval -> 0 <= delta ->
  0 <= Clock.sleep_secs interval delta <= interval /\
  (Clock.sleep_secs interval delta = 0 <->
   Clock.fetch_due interval delta = true) /\
  (forall later,
     delta + Clock.sleep_secs interval delta <= later ->
     Clock.fetch_due interval later = true) /\
  (interval <= 2147483 ->
   Clock.poll_timeout interval delta
   = Clock.sleep_secs interval delta * 1000) /\
  (2147484 <= interval <= 4294967 -> Clock.poll_timeout interval 0 < 0).
Proof.
  intros Hi Hd.
  assert (Hs : Clock.sleep_secs interval delta
               = if delta >? interval then 0 else interval - delta)
    by reflexivity.
  assert (Hdue : forall x, Clock.fetch_due interval x = true <-> interval <= x)
    by (intros x; unfold Clock.fetch_due; rewrite Z.geb_le; tauto).
  assert (Hrange : 0 <= Clock.sleep_secs interval delta <= interval)
    by (rewrite Hs; destruct (Z.gtb_spec delta interval); lia).
  split; [exact Hrange|]. split; [|split; [|split]].
  - rewrite Hdue, Hs. destruct (Z.gtb_spec delta interval); lia.
  - intros later H. apply Hdue. rewrite Hs in H.
    destruct (Z.gtb_spec delta interval); lia.
  - intros H. unfold Clock.poll_timeout, Clock.to_int.
    rewrite Z.mod_small by lia.
    destruct (Z.ltb_spec (Clock.sleep_secs interval delta * 1000) (2 ^ 31));
      lia.
  - intros H. unfold Clock.poll_timeout, Clock.to_int, Clock.sleep_secs.
    destruct (Z.gtb_spec 0 interval); [lia|].
    rewrite Z.sub_0_r, Z.mod_small by lia.
    destruct (Z.ltb_spec (interval * 1000) (2 ^ 31)); lia.
Qed.

Lemma poll_wait_consistent_witness :
  Clock.poll_timeout 1800 600 = 1200000 /\
  Clock.fetch_due 1800 1800 = true.
Proof.
  destruct (poll_wait_consistent 1800 600 ltac:(lia) ltac:(lia))
    as (_ & _ & Hlater & Hms & _).
  split.
  - rewrite Hms by lia. reflexivity.
  - apply Hlater. vm_compute. discriminate.
Defined.
(** ** The chunk accessors *)

(** X15.  http_req_chunk_read hands out what is unread and never an empty
    chunk.  While unread bytes are buffered it returns the address of the
    cursor without reading from the network, and marks the buffer as read
    up to chunk_len.  When the buffer is used up it reads once: bytes that
    arrive, at most 2048 of them, are put at the start of the buffer and
    handed out at offset 0, what is beyond 2048 bytes staying with the
    network; a poll or a read that brings nothing gives NULL with
    chunk_len and chunk_off 0; a read that fails gives NULL, closes the
    socket and leaves -1 in chunk_len.  Under the invariant of the buffer
    a returned address always has at least one byte before chunk_len. *)
Theorem chunk_read_slice (r : http_request) (w : network) :
  (exhausted r = false ->
   http_req_chunk_read (mk_state r w)
   = Ret (Some (chunk_off r), mk_state (set_chunk_off r (chunk_len r)) w) /\
   (chunk_inv r ->
    0 <= chunk_off r < chunk_len r /\ chunk_len r <= CHUNK_SIZE)) /\
  (exhausted r = true -> socket r <> 0 ->
   (forall bs,
      bs <> [] ->
      let a := firstn (Z.to_nat CHUNK_SIZE) bs in
      http_req_chunk_read (mk_state r (SelectReady (ReadBytes bs) :: w))
      = Ret (Some 0,
             mk_state (set_chunk_off (refilled r a) (Z.of_nat (length a)))
               (pending bs w)) /\
      firstn (length a) (chunk (refilled r a)) = a /\
      (0 < length a <= 2048)%nat) /\
   (forall ev,
      quiet ev = true ->
      http_req_chunk_read (mk_state r (ev :: w))
      = Ret (None, mk_state (starved r) w)) /\
   http_req_chunk_read (mk_state r (SelectReady ReadFail :: w))
   = Ret (None, mk_state (set_chunk_len (hang_up r) (-1)) w)).
Proof.
  split.
  - intros Hex. split.
    + unfold http_req_chunk_read, http_req_chunk_peek, refill, bind, get_req.
      cbn [req]. rewrite Hex. cbn [ret req]. rewrite Hex. reflexivity.
    + intros (I1 & I2 & I3). apply exhausted_false in Hex. lia.
  - intros Hex Hs. split; [|split].
    + intros bs Hne a.
      assert (La : (0 < length a <= 2048)%nat).
      { subst a. rewrite length_firstn. destruct bs; [contradiction|].
        cbn [length]. unfold CHUNK_SIZE.
        destruct (Nat.min_spec (Z.to_nat 2048) (S (length bs)))
          as [[? ->]|[? ->]]; lia. }
      split; [|split; [|exact La]].
      * unfold http_req_chunk_read, http_req_chunk_peek, bind.
        rewrite (refill_delivers r bs w Hex Hs). fold a.
        unfold get_req. cbn [req].
        assert (Hex1 : exhausted (refilled r a) = false).
        { unfold exhausted, refilled. cbn [chunk_len chunk_off].
          apply orb_false_iff.
          split; [apply Z.eqb_neq | rewrite Z.gtb_ltb; apply Z.ltb_ge]; lia. }
        rewrite Hex1. reflexivity.
      * unfold refilled, write_at. cbn [chunk Z.to_nat firstn app].
        apply firstn_all_app. reflexivity.
    + intros ev Hq.
      unfold http_req_chunk_read, http_req_chunk_peek, bind.
      rewrite (refill_quiet r ev w Hex Hs Hq). reflexivity.
    + apply Z.eqb_neq in Hs.
      unfold http_req_chunk_read, http_req_chunk_peek, refill, bind, get_req.
      cbn [req]. rewrite Hex.
      unfold http_req_read. cbn [req net]. rewrite Hs. reflexivity.
Qed.

Lemma chunk_read_slice_witness :
  http_req_chunk_read
    (mk_state (mk_req 3 false false (cstr "BODY") 4 1) [])
  = Ret (Some 1, mk_state (mk_req 3 false false (cstr "BODY") 4 4) []) /\
  http_req_chunk_read
    (mk_state (mk_req 3 false false (cstr "BODY") 4 4)
       [SelectReady (ReadBytes (cstr "more"))])
  = Ret (Some 0, mk_state (mk_req 3 false false (cstr "more") 4 4) []).
Proof.
  split.
  - apply (proj1 (chunk_read_slice (mk_req 3 false false (cstr "BODY") 4 1)
                    [])).
    reflexivity.
  - apply (proj2 (chunk_read_slice (mk_req 3 false false (cstr "BODY") 4 4)
                    [])); [reflexivity | discriminate | discriminate].
Defined.

(** ** What url_parse returns, read against its input *)


